(** * MultiStepInput: the multi-step wizard of [client/common/utils/multiStepInput.ts]

    A shallow embedding of the step runner ([stepThrough]), of the two prompt
    operations ([showQuickPick], [showInputBox]) and of the listeners they
    register, followed by the properties of the navigation loop, of prompt
    replacement and of input validation.

    Modelling conventions.
    - A JavaScript array is a [list] in index order: [push] appends at the
      end, [pop] removes the last element and yields [undefined] ([None]) on
      the empty array.
    - The widgets handed out by [IApplicationShell] are mutable objects; they
      live in a store ([widgets]) and [this.current] is a reference (an index)
      into it.
    - A [Promise] settles once; later [resolve]/[reject] calls are ignored.
    - Every call of [validate] yields a promise of its own, identified by a
      ticket; [===] on promises is equality of tickets.  A validator is a
      function from the text to the message it eventually reports; a
      validator that throws is not modelled.
    - What the user and the scheduler do is a script: a sequence of events,
      each addressed to one widget.  Events are taken from the script while a
      step awaits a prompt; any event may reach any widget, also one the
      editor would no longer serve, so what holds for every script holds for
      the scripts the editor can produce.
    - A step body is a program over the shared state and the two prompt
      operations; [current] and [steps] are private to the runner and out of
      its reach.  A body that starts a nested [run] on the same runner is not
      modelled.
    - The loop has no bound of its own; [stepThrough] takes the number of
      step invocations it may make and reports [OutOfFuel] when they are used
      up, and [Awaiting] when the script ends while a prompt is open. *)

From Stdlib Require Import String.
From stdpp Require Import base option list gmap strings.

Open Scope string_scope.
Open Scope nat_scope.
Open Scope list_scope.

(** ** Control signals and thrown values *)

(** [class InputFlowAction] with its three static instances. *)
Inductive InputFlowAction := back | cancel | resume.

#[global] Instance InputFlowAction_eq_dec : EqDecision InputFlowAction.
Proof. solve_decision. Defined.

(** What a [catch (err)] can receive: one of the three signals, or anything
    else (an [Error] with its message). *)
Inductive Exn :=
| Flow (a : InputFlowAction)
| Failure (message : string).

(** ** Buttons, items, prompt results *)

(** [QuickInputButtons.Back] is one distinguished object; every other button
    is supplied by the caller. *)
Inductive QuickInputButton :=
| Back
| Custom (id : nat).

#[global] Instance QuickInputButton_eq_dec : EqDecision QuickInputButton.
Proof. solve_decision. Defined.

Record QuickPickItem := { label : string }.

(** The values a prompt promise is resolved with
    ([MultiStepInputQuickPicResponseType], [MultiStepInputInputBoxResponseType]). *)
Inductive Response :=
| Item (x : QuickPickItem)
| Button (b : QuickInputButton)
| Text (s : string)
| Undefined.

Inductive Promise :=
| Pending
| Resolved (v : Response)
| Rejected (a : InputFlowAction).

Record IQuickPickParameters := {
  qp_title : option string;
  qp_step : option nat;
  qp_totalSteps : option nat;
  qp_canGoBack : option bool;
  qp_items : list QuickPickItem;
  qp_activeItem : option QuickPickItem;
  qp_placeholder : string;
  qp_buttons : option (list QuickInputButton);
  qp_matchOnDescription : option bool;
  qp_matchOnDetail : option bool;
  qp_acceptFilterBoxTextAsSelection : option bool
}.

Record InputBoxParameters := {
  ib_title : string;
  ib_password : option bool;
  ib_step : option nat;
  ib_totalSteps : option nat;
  ib_value : string;
  ib_prompt : string;
  ib_buttons : option (list QuickInputButton);
  validate : string -> option string
}.

(** [x || d] on an optional value whose present values are all truthy. *)
Definition or_default {A} (x : option A) (d : A) : A :=
  match x with Some a => a | None => d end.

(** [x || false] and [!!x] on an optional boolean. *)
Definition truthy_flag (x : option bool) : bool := or_default x false.

(** Truthiness of a validation result ([string | undefined]): [undefined]
    and the empty string are falsy. *)
Definition truthy (m : option string) : bool :=
  match m with
  | None => false
  | Some s => negb (String.eqb s EmptyString)
  end.

(** ** Prompts *)

Inductive PromptSource :=
| QuickPickOf (p : IQuickPickParameters)
| InputBoxOf (p : InputBoxParameters).

(** The code that runs after an [await validate(...)]. *)
Inductive Continuation :=
| AfterAccept (inputValue : string) (message : option string)
| AfterChange (message : option string).

(** One prompt: the widget ([input]) together with the closure of the
    [show...] call that created it.  The presentation fields copied from the
    parameters (title, step, totalSteps, placeholder, prompt, password, items,
    activeItems, matchOn...) stay in [source]; [ignoreFocusOut] is always
    true. *)
Record Prompt := {
  source : PromptSource;
  buttons : list QuickInputButton;
  value : string;
  enabled : bool;
  busy : bool;
  validationMessage : option string;
  visible : bool;
  disposed : bool;
  promise : Promise;
  validating : nat;
  issued : nat;
  inflight : gmap nat Continuation
}.

Definition activeItems (p : IQuickPickParameters) : list QuickPickItem :=
  match qp_activeItem p with Some a => [a] | None => [] end.

Definition set_value (v : string) (p : Prompt) : Prompt :=
  {| source := source p; buttons := buttons p; value := v; enabled := enabled p;
     busy := busy p; validationMessage := validationMessage p; visible := visible p;
     disposed := disposed p; promise := promise p; validating := validating p;
     issued := issued p; inflight := inflight p |}.

Definition set_enabled (b : bool) (p : Prompt) : Prompt :=
  {| source := source p; buttons := buttons p; value := value p; enabled := b;
     busy := busy p; validationMessage := validationMessage p; visible := visible p;
     disposed := disposed p; promise := promise p; validating := validating p;
     issued := issued p; inflight := inflight p |}.

Definition set_busy (b : bool) (p : Prompt) : Prompt :=
  {| source := source p; buttons := buttons p; value := value p; enabled := enabled p;
     busy := b; validationMessage := validationMessage p; visible := visible p;
     disposed := disposed p; promise := promise p; validating := validating p;
     issued := issued p; inflight := inflight p |}.

Definition set_validationMessage (m : option string) (p : Prompt) : Prompt :=
  {| source := source p; buttons := buttons p; value := value p; enabled := enabled p;
     busy := busy p; validationMessage := m; visible := visible p;
     disposed := disposed p; promise := promise p; validating := validating p;
     issued := issued p; inflight := inflight p |}.

Definition set_visible (b : bool) (p : Prompt) : Prompt :=
  {| source := source p; buttons := buttons p; value := value p; enabled := enabled p;
     busy := busy p; validationMessage := validationMessage p; visible := b;
     disposed := disposed p; promise := promise p; validating := validating p;
     issued := issued p; inflight := inflight p |}.

Definition set_disposed (b : bool) (p : Prompt) : Prompt :=
  {| source := source p; buttons := buttons p; value := value p; enabled := enabled p;
     busy := busy p; validationMessage := validationMessage p; visible := visible p;
     disposed := b; promise := promise p; validating := validating p;
     issued := issued p; inflight := inflight p |}.

Definition set_promise (q : Promise) (p : Prompt) : Prompt :=
  {| source := source p; buttons := buttons p; value := value p; enabled := enabled p;
     busy := busy p; validationMessage := validationMessage p; visible := visible p;
     disposed := disposed p; promise := q; validating := validating p;
     issued := issued p; inflight := inflight p |}.

Definition set_validating (t : nat) (p : Prompt) : Prompt :=
  {| source := source p; buttons := buttons p; value := value p; enabled := enabled p;
     busy := busy p; validationMessage := validationMessage p; visible := visible p;
     disposed := disposed p; promise := promise p; validating := t;
     issued := issued p; inflight := inflight p |}.

Definition set_calls (n : nat) (m : gmap nat Continuation) (p : Prompt) : Prompt :=
  {| source := source p; buttons := buttons p; value := value p; enabled := enabled p;
     busy := busy p; validationMessage := validationMessage p; visible := visible p;
     disposed := disposed p; promise := promise p; validating := validating p;
     issued := n; inflight := m |}.

(** *** The widget's own methods *)

(** [input.show()]. *)
Definition show (p : Prompt) : Prompt := set_visible true p.

(** [input.dispose()]: the widget leaves the screen for good. *)
Definition dispose (p : Prompt) : Prompt := set_disposed true (set_visible false p).

(** *** The promise of a [show...] call *)

Definition settle (q : Promise) (p : Prompt) : Prompt :=
  match promise p with
  | Pending => set_promise q p
  | _ => p
  end.

Definition resolve (v : Response) : Prompt -> Prompt := settle (Resolved v).
Definition reject (a : InputFlowAction) : Prompt -> Prompt := settle (Rejected a).

(** The listeners are disposed in the [finally] that follows the settling of
    the promise, so they are alive exactly while it is pending. *)
Definition listening (p : Prompt) : bool :=
  match promise p with Pending => true | _ => false end.

(** *** Listeners *)

(** [input.onDidTriggerButton], the same in both operations. *)
Definition onDidTriggerButton (item : QuickInputButton) (p : Prompt) : Prompt :=
  if decide (item = Back) then reject back p else resolve (Button item) p.

(** [input.onDidChangeSelection((selectedItems) => resolve(selectedItems[0]))]. *)
Definition onDidChangeSelection (selectedItems : list QuickPickItem) (p : Prompt) : Prompt :=
  resolve (match selectedItems with x :: _ => Item x | [] => Undefined end) p.

Definition onDidHide (p : Prompt) : Prompt := resolve Undefined p.

(** [onDidAccept] of a quick pick, registered only under
    [acceptFilterBoxTextAsSelection]. *)
Definition quickPick_onDidAccept (p : Prompt) : Prompt := resolve (Text (value p)) p.

(** A call of [validate]: the next ticket is handed out and the code after
    the [await] is parked under it. *)
Definition call_validate (k : Continuation) (p : Prompt) : Prompt :=
  set_calls (S (issued p)) (<[issued p := k]> (inflight p)) p.

(** [onDidAccept] of an input box, up to its [await]. *)
Definition inputBox_onDidAccept (validate : string -> option string) (p : Prompt) : Prompt :=
  let inputValue := value p in
  let p := set_enabled false p in
  let p := set_busy true p in
  call_validate (AfterAccept inputValue (validate inputValue)) p.

(** [onDidChangeValue] of an input box, up to its [await]. *)
Definition onDidChangeValue (validate : string -> option string) (text : string)
    (p : Prompt) : Prompt :=
  let current := issued p in
  let p := call_validate (AfterChange (validate text)) p in
  set_validating current p.

(** The code after the [await], run when the promise of ticket [current]
    resolves. *)
Definition continue (current : nat) (k : Continuation) (p : Prompt) : Prompt :=
  match k with
  | AfterAccept inputValue message =>
      let p := if negb (truthy message) then resolve (Text inputValue) p else p in
      let p := set_enabled true p in
      set_busy false p
  | AfterChange validationMessage =>
      if decide (current = validating p)
      then set_validationMessage validationMessage p
      else p
  end.

(** *** Events *)

Inductive UiEvent :=
| TriggerButton (b : QuickInputButton)
| ChangeSelection (selectedItems : list QuickPickItem)
| Accept
| ChangeValue (text : string)
| Hide
| Settle (ticket : nat).

(** What the editor does to the widget before it notifies the listeners. *)
Definition platform (ev : UiEvent) (p : Prompt) : Prompt :=
  match ev with
  | ChangeValue text => set_value text p
  | Hide => set_visible false p
  | _ => p
  end.

(** The listener registered for an event, if any. *)
Definition fire (ev : UiEvent) (p : Prompt) : Prompt :=
  match ev, source p with
  | TriggerButton item, _ => onDidTriggerButton item p
  | Hide, _ => onDidHide p
  | ChangeSelection selectedItems, QuickPickOf _ => onDidChangeSelection selectedItems p
  | Accept, QuickPickOf q =>
      if truthy_flag (qp_acceptFilterBoxTextAsSelection q) then quickPick_onDidAccept p else p
  | Accept, InputBoxOf b => inputBox_onDidAccept (validate b) p
  | ChangeValue text, InputBoxOf b => onDidChangeValue (validate b) text p
  | _, _ => p
  end.

Definition handle (ev : UiEvent) (p : Prompt) : Prompt :=
  match ev with
  | Settle ticket =>
      match inflight p !! ticket with
      | Some k => continue ticket k (set_calls (issued p) (delete ticket (inflight p)) p)
      | None => p
      end
  | _ =>
      let p' := platform ev p in
      if listening p then fire ev p' else p'
  end.

(** ** The runner *)

Section Runner.

Context {State Step : Type}.

(** What can be observed of a run, in order. *)
Inductive Event :=
| Invoked (s : Step)
| Shown (i : nat)
| Disposed (i : nat).

(** [class MultiStepInput] ([current], [steps]) together with the widgets
    created through [shell], the shared [state] object handed to every step,
    the events still to come and the actions taken so far. *)
Record World := {
  current : option nat;
  steps : list Step;
  widgets : list Prompt;
  state : State;
  script : list (nat * UiEvent);
  trace : list Event
}.

Definition set_current (c : option nat) (w : World) : World :=
  {| current := c; steps := steps w; widgets := widgets w; state := state w;
     script := script w; trace := trace w |}.

Definition set_steps (l : list Step) (w : World) : World :=
  {| current := current w; steps := l; widgets := widgets w; state := state w;
     script := script w; trace := trace w |}.

Definition set_widgets (l : list Prompt) (w : World) : World :=
  {| current := current w; steps := steps w; widgets := l; state := state w;
     script := script w; trace := trace w |}.

Definition set_state (s : State) (w : World) : World :=
  {| current := current w; steps := steps w; widgets := widgets w; state := s;
     script := script w; trace := trace w |}.

Definition set_script (l : list (nat * UiEvent)) (w : World) : World :=
  {| current := current w; steps := steps w; widgets := widgets w; state := state w;
     script := l; trace := trace w |}.

Definition record (e : Event) (w : World) : World :=
  {| current := current w; steps := steps w; widgets := widgets w; state := state w;
     script := script w; trace := trace w ++ [e] |}.

(** A runner as [MultiStepInputFactory.create] makes it, before any run. *)
Definition create (s0 : State) (events : list (nat * UiEvent)) : World :=
  {| current := None; steps := []; widgets := []; state := s0;
     script := events; trace := [] |}.

(** *** Array operations on [this.steps] *)

Definition push (s : Step) (w : World) : World := set_steps (steps w ++ [s]) w.

Definition pop (w : World) : option Step * World :=
  (last (steps w), set_steps (removelast (steps w)) w).

(** *** Creating and showing a prompt *)

(** [[...(this.steps.length > 1 ? [QuickInputButtons.Back] : []), ...(buttons || [])]]. *)
Definition buttons_for (w : World) (extra : option (list QuickInputButton))
    : list QuickInputButton :=
  (if 1 <? length (steps w) then [Back] else []) ++ or_default extra [].

Definition createQuickPick (w : World) (q : IQuickPickParameters) : Prompt :=
  {| source := QuickPickOf q;
     buttons := buttons_for w (qp_buttons q);
     value := EmptyString;
     enabled := true; busy := false;
     validationMessage := None;
     visible := false; disposed := false;
     promise := Pending;
     validating := 0; issued := 0; inflight := ∅ |}.

(** [let validating = validate('')] takes the first ticket; nothing awaits it.
    A validator that throws on this call makes [showInputBox] fail with what
    it threw; validators are functions here and throw nothing. *)
Definition createInputBox (w : World) (b : InputBoxParameters) : Prompt :=
  {| source := InputBoxOf b;
     buttons := buttons_for w (ib_buttons b);
     value := ib_value b;
     enabled := true; busy := false;
     validationMessage := None;
     visible := false; disposed := false;
     promise := Pending;
     validating := 0; issued := 1; inflight := ∅ |}.

(** [if (this.current) { this.current.dispose(); }]. *)
Definition dispose_current (w : World) : World :=
  match current w with
  | Some c => record (Disposed c) (set_widgets (alter dispose c (widgets w)) w)
  | None => w
  end.

(** The end of both executors: the new widget takes the place of the
    current one and is shown. *)
Definition present (input : Prompt) (w : World) : World :=
  let id := length (widgets w) in
  let w := set_widgets (widgets w ++ [input]) w in
  let w := dispose_current w in
  let w := set_current (Some id) w in
  record (Shown id) (set_widgets (alter show id (widgets w)) w).

Definition showQuickPick (q : IQuickPickParameters) (w : World) : World :=
  present (createQuickPick w q) w.

Definition showInputBox (b : InputBoxParameters) (w : World) : World :=
  present (createInputBox w b) w.

(** *** Awaiting a prompt *)

(** The outcome of [await]ing a promise. *)
Inductive Settled :=
| Fulfilled (v : Response)
| Thrown (a : InputFlowAction).

Definition settled (p : option Prompt) : option Settled :=
  match p with
  | Some p =>
      match promise p with
      | Pending => None
      | Resolved v => Some (Fulfilled v)
      | Rejected a => Some (Thrown a)
      end
  | None => None
  end.

(** An event reaches the widget it is addressed to. *)
Definition deliver (i : nat) (ev : UiEvent) (w : World) : World :=
  set_widgets (alter (handle ev) i (widgets w)) w.

(** Events are delivered until the promise of prompt [id] is settled; [None]
    when the script ends first (the prompt stays open and the step never
    continues). *)
Fixpoint await_events (id : nat) (events : list (nat * UiEvent)) (w : World)
    : option Settled * World :=
  match settled (widgets w !! id) with
  | Some r => (Some r, set_script events w)
  | None =>
      match events with
      | [] => (None, set_script [] w)
      | (i, ev) :: rest => await_events id rest (deliver i ev w)
      end
  end.

Definition await (id : nat) (w : World) : option Settled * World :=
  await_events id (script w) w.

(** *** Steps *)

(** The body of a step ([InputStep<S>]): it reads and updates the shared
    state, shows prompts through the runner and awaits them, and ends by
    returning the next step (or nothing) or by throwing. *)
Inductive Prog :=
| Return (next : option Step)
| Throw (err : Exn)
| Get (k : State -> Prog)
| Put (s : State) (k : Prog)
| ShowQuickPick (q : IQuickPickParameters) (k : Settled -> Prog)
| ShowInputBox (b : InputBoxParameters) (k : Settled -> Prog).

(** A plain [await input.showQuickPick(...)]: a rejection is rethrown. *)
Definition uncaught (k : Response -> Prog) (r : Settled) : Prog :=
  match r with
  | Fulfilled v => k v
  | Thrown a => Throw (Flow a)
  end.

Inductive Outcome :=
| Returned (next : option Step)
| Raised (err : Exn)
| Hung.

Fixpoint exec (p : Prog) (w : World) : Outcome * World :=
  match p with
  | Return next => (Returned next, w)
  | Throw err => (Raised err, w)
  | Get k => exec (k (state w)) w
  | Put s k => exec k (set_state s w)
  | ShowQuickPick q k =>
      let id := length (widgets w) in
      match await id (showQuickPick q w) with
      | (Some r, w') => exec (k r) w'
      | (None, w') => (Hung, w')
      end
  | ShowInputBox b k =>
      let id := length (widgets w) in
      match await id (showInputBox b w) with
      | (Some r, w') => exec (k r) w'
      | (None, w') => (Hung, w')
      end
  end.

(** *** The navigation loop *)

Variable body : Step -> Prog.

(** The head of a loop iteration: the step is pushed and the current prompt,
    if any, is disabled and marked busy. *)
Definition enter (s : Step) (w : World) : World :=
  let w := push s w in
  let w :=
    match current w with
    | Some c =>
        set_widgets (alter (fun p => set_busy true (set_enabled false p)) c (widgets w)) w
    | None => w
    end in
  record (Invoked s) w.

Inductive Completion :=
| Completed
| Failed (err : string)
| Awaiting
| OutOfFuel.

(** [stepThrough]; the fuel bounds the number of step invocations. *)
Fixpoint stepThrough (fuel : nat) (step : option Step) (w : World) : Completion * World :=
  match step with
  | None => (Completed, dispose_current w)
  | Some s =>
      match fuel with
      | O => (OutOfFuel, w)
      | S fuel =>
          match exec (body s) (enter s w) with
          | (Returned next, w) => stepThrough fuel next w
          | (Raised (Flow back), w) =>
              let w := snd (pop w) in
              let '(step, w) := pop w in
              stepThrough fuel step w
          | (Raised (Flow resume), w) =>
              let '(step, w) := pop w in
              stepThrough fuel step w
          | (Raised (Flow cancel), w) => stepThrough fuel None w
          | (Raised (Failure err), w) => (Failed err, w)
          | (Hung, w) => (Awaiting, w)
          end
      end
  end.

Definition run (fuel : nat) (start : Step) (w : World) : Completion * World :=
  stepThrough fuel (Some start) w.

End Runner.

(** ** Observations and invariants *)

(** A run of events on one prompt. *)
Definition handle_all (evs : list UiEvent) (p : Prompt) : Prompt :=
  foldl (fun p ev => handle ev p) p evs.

Definition is_change (ev : UiEvent) : bool :=
  match ev with ChangeValue _ => true | _ => false end.

(** The keystroke validation with ticket [t] and result [m] is the one
    [validating] points to; its result is either still awaited (the message on
    display is [before]) or has been [applied]. *)
Definition latest (t : nat) (m before : option string) (applied : bool) (q : Prompt) : Prop :=
  validating q = t /\ t < issued q /\
  if applied then inflight q !! t = None /\ validationMessage q = m
  else inflight q !! t = Some (AfterChange m) /\ validationMessage q = before.

Section Observations.

Context {State Step : Type}.

(** The steps invoked, in order. *)
Definition invocations (tr : list (@Event Step)) : list Step :=
  omap (fun e => match e with Invoked s => Some s | _ => None end) tr.

Definition is_dispose (i : nat) (e : @Event Step) : bool :=
  match e with Disposed j => Nat.eqb i j | _ => false end.

(** How many times widget [i] was disposed. *)
Definition disposals (i : nat) (tr : list (@Event Step)) : nat :=
  length (List.filter (is_dispose i) tr).

(** Only the current prompt can be on screen. *)
Definition at_most_current (w : @World State Step) : Prop :=
  forall i p, widgets w !! i = Some p -> visible p = true -> current w = Some i.

(** No widget was disposed twice, none before it existed, and the current
    one not yet. *)
Definition current_undisposed (w : @World State Step) : Prop :=
  (forall i, disposals i (trace w) <= 1) /\
  (forall i, length (widgets w) <= i -> disposals i (trace w) = 0) /\
  (forall c, current w = Some c -> c < length (widgets w) /\ disposals c (trace w) = 0).

(** A prompt that is on screen has not been disposed, no widget was disposed
    before it existed, and the current prompt is one of the widgets.  This
    holds of a new runner and of every runner that has been used, also of one
    that completed earlier runs. *)
Definition shown_undisposed (w : @World State Step) : Prop :=
  (forall i p, widgets w !! i = Some p -> visible p = true ->
     disposals i (trace w) = 0) /\
  (forall i, length (widgets w) <= i -> disposals i (trace w) = 0) /\
  (forall c, current w = Some c -> c < length (widgets w)).

(** Properties of the world that no step body can break: a body only writes
    the shared state, shows prompts and waits for events. *)
Record stable (I : @World State Step -> Prop) : Prop := {
  stable_state : forall s w, I w -> I (set_state s w);
  stable_script : forall l w, I w -> I (set_script l w);
  stable_deliver : forall i ev w, I w -> I (deliver i ev w);
  stable_present : forall input w, I w -> I (present input w)
}.

(** ... and that the loop itself keeps while it goes on. *)
Record loop_stable (I : @World State Step -> Prop) : Prop := {
  loop_stable_step : stable I;
  stable_enter : forall s w, I w -> I (enter s w);
  stable_pop : forall w, I w -> I (snd (pop w))
}.

End Observations.

(** ** A three-page wizard *)

Module Wizard.

Inductive Page := A | B | C.

Definition x : QuickPickItem := {| label := "x" |}.
Definition y : QuickPickItem := {| label := "y" |}.

Definition pick (title : string) (extra : option (list QuickInputButton))
    : IQuickPickParameters :=
  {| qp_title := Some title; qp_step := None; qp_totalSteps := Some 3;
     qp_canGoBack := None; qp_items := [x; y]; qp_activeItem := None;
     qp_placeholder := "choose"; qp_buttons := extra;
     qp_matchOnDescription := None; qp_matchOnDetail := None;
     qp_acceptFilterBoxTextAsSelection := None |}.

(** The answers given so far are the shared state. *)
Definition answer (next : option Page) (r : Response) : @Prog (list string) Page :=
  match r with
  | Item i => Get (fun st => Put (st ++ [label i]) (Return next))
  | _ => Return None
  end.

(** A asks, then B asks, then C ends the wizard. *)
Definition pages (s : Page) : @Prog (list string) Page :=
  match s with
  | A => ShowQuickPick (pick "A" None) (uncaught (answer (Some B)))
  | B => ShowQuickPick (pick "B" None) (uncaught (answer (Some C)))
  | C => Return None
  end.

(** The first page offers a Back button of its own. *)
Definition pages_back_first (s : Page) : @Prog (list string) Page :=
  match s with
  | A => ShowQuickPick (pick "A" (Some [Back])) (uncaught (answer (Some B)))
  | _ => Return None
  end.

(** B gives up once it has its answer. *)
Definition pages_cancel (s : Page) : @Prog (list string) Page :=
  match s with
  | A => ShowQuickPick (pick "A" None) (uncaught (answer (Some B)))
  | B => ShowQuickPick (pick "B" None) (uncaught (fun _ => Throw (Flow cancel)))
  | C => Return None
  end.

(** A fails once it has its answer. *)
Definition pages_fail (s : Page) : @Prog (list string) Page :=
  match s with
  | A => ShowQuickPick (pick "A" None) (uncaught (fun _ => Throw (Failure "boom")))
  | _ => Return None
  end.

Definition fresh (events : list (nat * UiEvent)) : @World (list string) Page :=
  create [] events.

(** A validator that objects to "a" only. *)
Definition not_a (text : string) : option string :=
  if String.eqb text "a" then Some "too short" else None.

Definition name_box : InputBoxParameters :=
  {| ib_title := "name"; ib_password := None; ib_step := None; ib_totalSteps := None;
     ib_value := EmptyString; ib_prompt := "your name"; ib_buttons := None; validate := not_a |}.

(** The input box as [showInputBox] leaves it on a runner that has one step
    on its stack. *)
Definition shown_box : Prompt :=
  show (createInputBox (push A (fresh [])) name_box).

End Wizard.

(** *** Runs of the wizard *)

Module Runs.

Import Wizard.

Definition choose_x : UiEvent := ChangeSelection [x].

(** x is chosen on page A, Back is pressed on page B, and A, shown again, is
    dismissed. *)
Definition back_start : @World (list string) Page :=
  fresh [(0, choose_x); (1, TriggerButton Back); (2, Hide)].
Definition back_on_B : @World (list string) Page :=
  snd (exec (pages A) (enter A back_start)).
Definition back_raised : @World (list string) Page :=
  snd (exec (pages B) (enter B back_on_B)).

(** Back is pressed on the first page. *)
Definition first_start : @World (list string) Page :=
  fresh [(0, TriggerButton Back)].
Definition first_raised : @World (list string) Page :=
  snd (exec (pages_back_first A) (enter A first_start)).

(** x is chosen on both pages, then B cancels. *)
Definition cancel_start : @World (list string) Page :=
  fresh [(0, choose_x); (1, choose_x)].
Definition cancel_on_B : @World (list string) Page :=
  snd (exec (pages_cancel A) (enter A cancel_start)).
Definition cancel_raised : @World (list string) Page :=
  snd (exec (pages_cancel B) (enter B cancel_on_B)).

(** x is chosen on page A, then A fails. *)
Definition fail_start : @World (list string) Page :=
  fresh [(0, choose_x)].

(** x is chosen on page A and page B is dismissed: the wizard ends. *)
Definition end_start : @World (list string) Page :=
  fresh [(0, choose_x); (1, Hide)].
Definition end_on_B : @World (list string) Page :=
  snd (exec (pages A) (enter A end_start)).
Definition end_returned : @World (list string) Page :=
  snd (exec (pages B) (enter B end_on_B)).

(** The same runner is used for a second run, whose first page is
    dismissed. *)
Definition second_start : @World (list string) Page :=
  set_script [(2, Hide)] (snd (run pages 3 A end_start)).

End Runs.

(** ** Further observations *)

(** The buttons the caller asked for. *)
Definition extra_buttons (src : PromptSource) : list QuickInputButton :=
  match src with
  | QuickPickOf q => or_default (qp_buttons q) []
  | InputBoxOf b => or_default (ib_buttons b) []
  end.

(** The message on display and the results still awaited by keystroke
    validations all come from the validator applied to a text that one of
    the events typed. *)
Definition from_typed (b : InputBoxParameters) (evs : list UiEvent) (p : Prompt) : Prop :=
  (validationMessage p = None \/
   exists text, ChangeValue text ∈ evs /\ validationMessage p = validate b text) /\
  (forall t m, inflight p !! t = Some (AfterChange m) ->
     exists text, ChangeValue text ∈ evs /\ m = validate b text).

(** How a prompt that was pending with nothing awaited can have come to its
    outcome. *)
Definition explained (evs : list UiEvent) (p : Prompt) : Prop :=
  match promise p with
  | Pending => True
  | Rejected a => a = back /\ TriggerButton Back ∈ evs
  | Resolved (Button b) => b <> Back /\ TriggerButton b ∈ evs
  | Resolved Undefined =>
      Hide ∈ evs \/ ((exists q, source p = QuickPickOf q) /\ ChangeSelection [] ∈ evs)
  | Resolved (Item x) =>
      (exists q, source p = QuickPickOf q) /\
      exists rest, ChangeSelection (x :: rest) ∈ evs
  | Resolved (Text t) =>
      Accept ∈ evs /\
      match source p with
      | QuickPickOf q => truthy_flag (qp_acceptFilterBoxTextAsSelection q) = true
      | InputBoxOf b => truthy (validate b t) = false
      end
  end.

Section Paths.

Context {State Step : Type}.
Variable body : Step -> @Prog State Step.

(** [forward step w ss last w']: from [w] with [step] as the current step,
    the steps [ss] are entered one after the other, each returning the next,
    and the loop arrives at [w'] with [last] as the current step. *)
Inductive forward : option Step -> @World State Step -> list Step ->
                    option Step -> @World State Step -> Prop :=
| forward_nil step w : forward step w [] step w
| forward_cons s w next w1 ss last w2 :
    exec (body s) (enter s w) = (Returned next, w1) ->
    forward next w1 ss last w2 ->
    forward (Some s) w (s :: ss) last w2.

(** Every entry of the stack is a step that was invoked, and there are no
    more entries than invocations. *)
Definition stack_of_invoked (w : @World State Step) : Prop :=
  (forall s, s ∈ steps w -> s ∈ invocations (trace w)) /\
  length (steps w) <= length (invocations (trace w)).



(** Properties kept by everything a step body can do... *)
Record body_kept (I : @World State Step -> Prop) : Prop := {
  kept_state : forall s w, I w -> I (set_state s w);
  kept_script : forall l w, I w -> I (set_script l w);
  kept_deliver : forall i ev w, I w -> I (deliver i ev w);
  kept_quickPick : forall q w, I w -> I (showQuickPick q w);
  kept_inputBox : forall b w, I w -> I (showInputBox b w)
}.

(** ... and by the loop around the bodies. *)
Record run_kept (I : @World State Step -> Prop) : Prop := {
  kept_body : body_kept I;
  kept_enter : forall s w, I w -> I (enter s w);
  kept_pop : forall w, I w -> I (snd (pop w))
}.


End Paths.

(** Every submission still being validated was made by one of the events,
    on an input box, and carries the validator's verdict on its text. *)
Definition submitted (evs : list UiEvent) (p : Prompt) : Prop :=
  forall t v m, inflight p !! t = Some (AfterAccept v m) ->
    Accept ∈ evs /\ exists b, source p = InputBoxOf b /\ m = validate b v.

(** *** More runs of the wizard *)

Module Cases.

Import Wizard.

(** B asks to be shown again once, then ends the wizard. *)
Definition pages_resume (s : Page) : @Prog (list string) Page :=
  match s with
  | A => ShowQuickPick (pick "A" None) (uncaught (answer (Some B)))
  | B => Get (fun st =>
           if length st <? 2
           then Put (st ++ ["again"]) (Throw (Flow resume))
           else Return None)
  | C => Return None
  end.

Definition resume_start : @World (list string) Page :=
  fresh [(0, Runs.choose_x)].
Definition resume_on_B : @World (list string) Page :=
  snd (exec (pages_resume A) (enter A resume_start)).
Definition resume_raised : @World (list string) Page :=
  snd (exec (pages_resume B) (enter B resume_on_B)).

(** The runner of the wizard that B cancelled is used again, for the same
    wizard: x is chosen on both pages, then B cancels once more. *)
Definition reused_start : @World (list string) Page :=
  set_script [(2, Runs.choose_x); (3, Runs.choose_x)]
    (snd (run pages_cancel 3 A Runs.cancel_start)).
Definition reused_on_B : @World (list string) Page :=
  snd (exec (pages_cancel A) (enter A reused_start)).
Definition reused_raised : @World (list string) Page :=
  snd (exec (pages_cancel B) (enter B reused_on_B)).

(** The first page is entered and x is chosen on its quick pick. *)
Definition pick_start : @World (list string) Page :=
  enter A (fresh [(0, Runs.choose_x)]).
Definition pick_answered : @World (list string) Page :=
  snd (await 0 (showQuickPick (pick "A" None) pick_start)).

(** "ab" is typed into the name box and submitted; the validation made on
    submission resolves. *)
Definition box_start : @World (list string) Page :=
  enter A (fresh [(0, ChangeValue "ab"); (0, Accept); (0, Settle 2)]).
Definition box_answered : @World (list string) Page :=
  snd (await 0 (showInputBox name_box box_start)).

(** A quick pick that takes the filter text for an answer. *)
Definition pick_free : IQuickPickParameters :=
  {| qp_title := Some "free"; qp_step := None; qp_totalSteps := None;
     qp_canGoBack := None; qp_items := [x; y]; qp_activeItem := None;
     qp_placeholder := "choose or type"; qp_buttons := None;
     qp_matchOnDescription := None; qp_matchOnDetail := None;
     qp_acceptFilterBoxTextAsSelection := Some true |}.

Definition shown_free : Prompt :=
  show (createQuickPick (push A (fresh [])) pick_free).

End Cases.

(** * Properties *)

(** ** Listeners and events on one prompt *)

Ltac prompt_cases :=
  repeat match goal with
  | |- context [decide ?P] => destruct (decide P)
  | |- context [match ?x with _ => _ end] => destruct x eqn:?
  | H : context [decide ?P] |- _ => destruct (decide P)
  | H : context [match ?x with _ => _ end] |- _ => destruct x eqn:?
  end.

Ltac unfold_handlers :=
  unfold handle, fire, platform, continue, onDidTriggerButton, onDidChangeSelection,
    onDidHide, quickPick_onDidAccept, inputBox_onDidAccept, onDidChangeValue,
    call_validate, resolve, reject, settle, listening in *.

(** No listener and no event brings a widget back on screen. *)
Lemma handle_visible ev p : visible (handle ev p) = true -> visible p = true.
Proof. unfold_handlers. destruct ev; simpl; prompt_cases; simpl in *; congruence. Qed.

(** Code parked under a ticket stays there until that ticket is settled. *)
Lemma parked_stays t k ev p :
  inflight p !! t = Some k -> t < issued p -> ev <> Settle t ->
  inflight (handle ev p) !! t = Some k /\ t < issued (handle ev p).
Proof.
  intros Hk Ht Hev. unfold_handlers.
  destruct ev; simpl; prompt_cases; simpl in *;
    rewrite ?lookup_insert_ne by lia; rewrite ?lookup_delete_ne by congruence;
    try (split; [assumption | lia]).
Qed.

Lemma parked_stays_all t k evs : forall p,
  inflight p !! t = Some k -> t < issued p -> Settle t ∉ evs ->
  inflight (handle_all evs p) !! t = Some k.
Proof.
  induction evs as [|ev evs IH]; intros p Hk Ht Hevs; simpl; [assumption|].
  apply not_elem_of_cons in Hevs as [Hne Hevs].
  destruct (parked_stays t k ev p Hk Ht) as [Hk' Ht']; [congruence|].
  apply IH; assumption.
Qed.

(** [onDidAccept] up to its [await]. *)
Lemma accept_parks b p :
  source p = InputBoxOf b -> promise p = Pending ->
  handle Accept p =
    set_calls (S (issued p))
      (<[issued p := AfterAccept (value p) (validate b (value p))]> (inflight p))
      (set_busy true (set_enabled false p)).
Proof. intros Hs Hp. unfold_handlers. simpl. rewrite Hp, Hs. reflexivity. Qed.

(** [onDidAccept] after its [await]. *)
Lemma settle_accept t inputValue message p :
  inflight p !! t = Some (AfterAccept inputValue message) ->
  let p' := handle (Settle t) p in
  enabled p' = true /\ busy p' = false /\
  promise p' = (if truthy message then promise p else promise (resolve (Text inputValue) p)).
Proof.
  intros Hk. simpl. rewrite Hk. unfold continue, resolve, settle. simpl.
  destruct (truthy message); simpl; [auto|].
  destruct (promise p); simpl; auto.
Qed.

(** C9: when the user submits an input box, the box is disabled and marked
    busy and the promise stays pending while [validate] runs on the submitted
    text.  When the validator reports a truthy message the promise is left
    pending (the value is not accepted) and the box is enabled again; when it
    reports none (or the empty message) the promise is resolved with the
    submitted text. *)
Theorem C9_accept_validates (b : InputBoxParameters) (p : Prompt) :
  source p = InputBoxOf b -> promise p = Pending ->
  let inputValue := value p in
  let validated := handle (Settle (issued p)) (handle Accept p) in
  (enabled (handle Accept p) = false /\ busy (handle Accept p) = true /\
   promise (handle Accept p) = Pending) /\
  (truthy (validate b inputValue) = true ->
   promise validated = Pending /\ enabled validated = true /\ busy validated = false) /\
  (truthy (validate b inputValue) = false ->
   promise validated = Resolved (Text inputValue) /\
   enabled validated = true /\ busy validated = false).
Proof.
  intros Hs Hp inputValue validated.
  assert (Hk : inflight (handle Accept p) !! issued p
               = Some (AfterAccept inputValue (validate b inputValue))).
  { rewrite (accept_parks b p Hs Hp). simpl. apply lookup_insert_eq. }
  assert (Hq : promise (handle Accept p) = Pending).
  { rewrite (accept_parks b p Hs Hp). exact Hp. }
  split; [|split].
  - rewrite (accept_parks b p Hs Hp). simpl. auto.
  - intros Htr. destruct (settle_accept _ _ _ _ Hk) as (He & Hb & Hpr).
    fold validated in He, Hb, Hpr. rewrite Htr, Hq in Hpr. auto.
  - intros Htr. destruct (settle_accept _ _ _ _ Hk) as (He & Hb & Hpr).
    fold validated in He, Hb, Hpr. rewrite Htr in Hpr. rewrite Hpr.
    unfold resolve, settle. rewrite Hq. auto.
Qed.

(** C10: the text a successful submission resolves with is the text read
    from the box when [onDidAccept] fired.  Whatever happens to the box while
    the validation is awaited (edits included), the validator's verdict is
    about that text, [resolve] is called with that text, and the box is
    enabled and no longer busy once the validation has completed, whether
    the text was accepted or not. *)
Theorem C10_accept_captures_value (b : InputBoxParameters) (p : Prompt)
    (evs : list UiEvent) :
  source p = InputBoxOf b -> promise p = Pending -> Settle (issued p) ∉ evs ->
  let inputValue := value p in
  let during := handle_all evs (handle Accept p) in
  let validated := handle (Settle (issued p)) during in
  promise validated =
    (if truthy (validate b inputValue) then promise during
     else promise (resolve (Text inputValue) during)) /\
  (truthy (validate b inputValue) = false -> promise during = Pending ->
   promise validated = Resolved (Text inputValue)) /\
  enabled validated = true /\ busy validated = false.
Proof.
  intros Hs Hp Hevs inputValue during validated.
  assert (Hk : inflight during !! issued p
               = Some (AfterAccept inputValue (validate b inputValue))).
  { apply parked_stays_all; [| |assumption];
      rewrite (accept_parks b p Hs Hp); simpl; [apply lookup_insert_eq | lia]. }
  destruct (settle_accept _ _ _ _ Hk) as (He & Hb & Hpr).
  fold validated in He, Hb, Hpr.
  repeat split; try assumption.
  intros Htr Hd. rewrite Hpr, Htr. unfold resolve, settle. rewrite Hd. reflexivity.
Qed.

(** Without a newer keystroke the latest validation stays the latest, and
    once applied its result stays on display. *)
Lemma latest_handle t m vm0 a ev q :
  latest t m vm0 a q -> is_change ev = false ->
  exists a', latest t m vm0 a' (handle ev q) /\
             (a = true -> a' = true) /\ (ev = Settle t -> a' = true).
Proof.
  intros (Hv & Ht & Hst) Hev.
  destruct ev as [item|sel| |text| |t']; try discriminate Hev.
  1-4: exists a; split; [|split; [auto|discriminate]];
       unfold latest; unfold_handlers; simpl; prompt_cases; simpl in *;
       (split; [assumption|]); (split; [lia|]);
       destruct a; rewrite ?lookup_insert_ne by lia; assumption.
  destruct (decide (t' = t)) as [->|Hne].
  - exists true. split; [|auto]. unfold latest. simpl.
    destruct a; destruct Hst as [Hl Hm]; rewrite Hl.
    + auto.
    + simpl. rewrite decide_True by congruence. simpl.
      rewrite lookup_delete_eq. auto.
  - exists a. split; [|split; [auto|congruence]]. unfold latest. simpl.
    destruct (inflight q !! t') as [k|] eqn:Hk.
    + assert (Hkeep : forall r, validating r = validating q ->
                issued r = issued q -> inflight r = delete t' (inflight q) ->
                validationMessage r = validationMessage q ->
                validating r = t /\ t < issued r /\
                (if a then inflight r !! t = None /\ validationMessage r = m
                 else inflight r !! t = Some (AfterChange m) /\ validationMessage r = vm0)).
      { intros r E1 E2 E3 E4. rewrite E1, E2, E3, E4, lookup_delete_ne by congruence.
        auto. }
      destruct k as [v msg|msg]; unfold continue; simpl.
      * apply Hkeep; try reflexivity;
          destruct (truthy msg); simpl; unfold resolve, settle; simpl;
          destruct (promise q); reflexivity.
      * rewrite decide_False by congruence. apply Hkeep; reflexivity.
    + auto.
Qed.

Lemma latest_handle_all t m vm0 evs : forall a q,
  latest t m vm0 a q -> Forall (fun ev => is_change ev = false) evs ->
  exists a', latest t m vm0 a' (handle_all evs q) /\
             (a = true -> a' = true) /\ (Settle t ∈ evs -> a' = true).
Proof.
  induction evs as [|ev evs IH]; intros a q Hq Hevs; simpl.
  - exists a. split; [assumption|]. split; [auto|]. intros H. inversion H.
  - inversion Hevs as [|? ? Hev Hrest]; subst.
    destruct (latest_handle _ _ _ _ _ _ Hq Hev) as (a1 & H1 & Hmono & Hset).
    destruct (IH a1 _ H1 Hrest) as (a2 & H2 & Hmono2 & Hset2).
    exists a2. split; [assumption|]. split; [auto|].
    intros Hin. apply elem_of_cons in Hin as [<-|Hin]; auto.
Qed.

Lemma keystroke_latest b p text :
  source p = InputBoxOf b -> promise p = Pending ->
  latest (issued p) (validate b text) (validationMessage p) false
    (handle (ChangeValue text) p).
Proof.
  intros Hs Hp. unfold latest. unfold_handlers. simpl. rewrite Hp, Hs. simpl.
  rewrite lookup_insert_eq. auto.
Qed.

Lemma keystroke_then_events (b : InputBoxParameters) (p : Prompt) (text : string)
    (evs : list UiEvent) :
  source p = InputBoxOf b -> promise p = Pending ->
  Forall (fun ev => is_change ev = false) evs ->
  let typed := handle (ChangeValue text) p in
  let later := handle_all evs typed in
  validating typed = issued p /\
  (validationMessage later = validationMessage p \/
   validationMessage later = validate b text) /\
  (Settle (issued p) ∈ evs -> validationMessage later = validate b text) /\
  (forall stale k, stale <> validating later -> inflight later !! stale = Some k ->
     validationMessage (handle (Settle stale) later) = validationMessage later).
Proof.
  intros Hs Hp Hevs typed later.
  pose proof (keystroke_latest b p text Hs Hp) as Hl. fold typed in Hl.
  destruct (latest_handle_all _ _ _ evs _ _ Hl Hevs) as (a & Ha & _ & Hset).
  fold later in Ha. destruct Ha as (Hv & Ht & Hst).
  split; [apply Hl|]. split; [|split].
  - destruct a; destruct Hst as [_ ->]; auto.
  - intros Hin. rewrite (Hset Hin) in Hst. apply Hst.
  - intros stale k Hne Hk. simpl. rewrite Hk. destruct k as [v msg|msg]; unfold continue.
    + destruct (truthy msg); simpl; [reflexivity|].
      unfold resolve, settle; simpl. destruct (promise later); reflexivity.
    + simpl. rewrite decide_False by assumption. reflexivity.
Qed.

Lemma keystroke_keeps b p text :
  source p = InputBoxOf b -> promise p = Pending ->
  let typed := handle (ChangeValue text) p in
  source typed = InputBoxOf b /\ promise typed = Pending /\
  validationMessage typed = validationMessage p /\
  issued typed = S (issued p).
Proof. intros Hs Hp. unfold_handlers. simpl. rewrite Hp, Hs. simpl. auto. Qed.

(** C4: keystroke validation is last-issued-wins.  After a keystroke the
    validation it issued is the one [validating] points to; as long as no
    newer keystroke arrives, the message on display is either the one that
    was there or the result for that keystroke, it is that result once its
    validation has resolved, and a validation that is not the latest changes
    nothing when it resolves.  In particular, with a validator that objects
    to "a" and not to "ab", after typing "a" and then "ab" the message is
    empty at every moment, in whichever order the two validations resolve. *)
Theorem C4_last_issued_wins (b : InputBoxParameters) (p : Prompt) :
  source p = InputBoxOf b -> promise p = Pending ->
  (forall text evs, Forall (fun ev => is_change ev = false) evs ->
     let typed := handle (ChangeValue text) p in
     let later := handle_all evs typed in
     validating typed = issued p /\
     (validationMessage later = validationMessage p \/
      validationMessage later = validate b text) /\
     (Settle (issued p) ∈ evs -> validationMessage later = validate b text) /\
     (forall stale k, stale <> validating later -> inflight later !! stale = Some k ->
        validationMessage (handle (Settle stale) later) = validationMessage later)) /\
  (forall m, validate b "a" = Some m -> validate b "ab" = None ->
     validationMessage p = None ->
     let a := issued p in
     let ab := S (issued p) in
     let typed := handle_all [ChangeValue "a"; ChangeValue "ab"] p in
     validationMessage (handle (ChangeValue "a") p) = None /\
     validationMessage typed = None /\
     validationMessage (handle_all [Settle ab] typed) = None /\
     validationMessage (handle_all [Settle ab; Settle a] typed) = None /\
     validationMessage (handle_all [Settle a] typed) = None /\
     validationMessage (handle_all [Settle a; Settle ab] typed) = None /\
     validationMessage (handle_all [ChangeValue "a"; Settle a] p) = Some m).
Proof.
  intros Hs Hp. split.
  - intros text evs Hevs. apply keystroke_then_events; assumption.
  - intros m Ha Hab Hnone a ab typed.
    destruct (keystroke_keeps b p "a" Hs Hp) as (Hs1 & Hp1 & Hm1 & Hi1).
    assert (Hgen : forall evs, Forall (fun ev => is_change ev = false) evs ->
              validationMessage (handle_all evs typed) = None).
    { intros evs Hevs.
      destruct (keystroke_then_events b (handle (ChangeValue "a") p) "ab" evs Hs1 Hp1 Hevs)
        as (_ & [Hold|Hnew] & _).
      - unfold typed.
        change (handle_all [ChangeValue "a"; ChangeValue "ab"] p)
          with (handle (ChangeValue "ab") (handle (ChangeValue "a") p)).
        rewrite Hold, Hm1. exact Hnone.
      - unfold typed.
        change (handle_all [ChangeValue "a"; ChangeValue "ab"] p)
          with (handle (ChangeValue "ab") (handle (ChangeValue "a") p)).
        rewrite Hnew. exact Hab. }
    repeat split; try (apply Hgen; repeat constructor).
    + rewrite Hm1. exact Hnone.
    + apply (Hgen []). constructor.
    + rewrite <- Ha.
      apply (keystroke_then_events b p "a" [Settle a] Hs Hp); repeat constructor.
Qed.

(** ** Step bodies and the world *)

Section Bodies.
Context {State Step : Type}.

(** A stable property survives the execution of any step body. *)
Lemma await_events_stable (I : @World State Step -> Prop) (HI : stable I) id events :
  forall w, I w -> I (snd (await_events id events w)).
Proof.
  induction events as [|[i ev] rest IH]; intros w Hw; simpl;
    destruct (settled (widgets w !! id)); simpl.
  1-3: apply stable_script; assumption.
  apply IH, stable_deliver; assumption.
Qed.

Lemma await_stable (I : @World State Step -> Prop) (HI : stable I) id w :
  I w -> I (snd (await id w)).
Proof. apply await_events_stable, HI. Qed.

Lemma exec_stable (I : @World State Step -> Prop) (HI : stable I) (p : Prog) :
  forall w, I w -> I (snd (exec p w)).
Proof.
  induction p as [next|err|k IH|s k IH|q k IH|b k IH]; intros w Hw; simpl; auto.
  - apply IH, stable_state; assumption.
  - pose proof (await_stable I HI (length (widgets w)) (showQuickPick q w)) as Ha.
    destruct (await _ _) as [[r|] w']; simpl in *;
      [apply IH|]; apply Ha; unfold showQuickPick; apply stable_present; assumption.
  - pose proof (await_stable I HI (length (widgets w)) (showInputBox b w)) as Ha.
    destruct (await _ _) as [[r|] w']; simpl in *;
      [apply IH|]; apply Ha; unfold showInputBox; apply stable_present; assumption.
Qed.

Lemma steps_stable (l : list Step) : stable (fun w : @World State Step => steps w = l).
Proof.
  split; intros; simpl; try assumption.
  unfold present, dispose_current; simpl. destruct (current w); assumption.
Qed.

Lemma exec_steps (p : @Prog State Step) (w : World) : steps (snd (exec p w)) = steps w.
Proof. apply (exec_stable _ (steps_stable (steps w))). reflexivity. Qed.

Lemma invocations_app (tr1 tr2 : list (@Event Step)) :
  invocations (tr1 ++ tr2) = invocations tr1 ++ invocations tr2.
Proof. apply omap_app. Qed.

Lemma invocations_stable (l : list Step) :
  stable (fun w : @World State Step => invocations (trace w) = l).
Proof.
  split; intros; simpl; try assumption.
  unfold present, dispose_current; simpl.
  destruct (current w); simpl; rewrite !invocations_app; simpl;
    rewrite ?app_nil_r; assumption.
Qed.

Lemma exec_invocations (p : @Prog State Step) (w : World) :
  invocations (trace (snd (exec p w))) = invocations (trace w).
Proof. apply (exec_stable _ (invocations_stable _)). reflexivity. Qed.

End Bodies.

(** ** The two invariants *)

Section Invariants.
Context {State Step : Type}.

Lemma lookup_alter_visible (f : Prompt -> Prompt) (ws : list Prompt) i j p :
  (forall q, visible (f q) = true -> visible q = true) ->
  alter f i ws !! j = Some p -> visible p = true ->
  exists q, ws !! j = Some q /\ visible q = true.
Proof.
  intros Hf Hl Hv. rewrite list_lookup_alter in Hl.
  destruct (decide (i = j)) as [->|_]; [|eauto].
  destruct (ws !! j) as [q|]; simpl in Hl; [|discriminate].
  injection Hl as <-. eauto.
Qed.

Lemma at_most_current_dispose_current (w : @World State Step) :
  at_most_current w -> at_most_current (dispose_current w).
Proof.
  intros Hw. unfold dispose_current. destruct (current w) as [c|] eqn:Hc; [|assumption].
  intros i p Hl Hv; simpl in *.
  destruct (lookup_alter_visible dispose (widgets w) c i p) as (q & Hq & Hqv);
    [intros q; simpl; discriminate | exact Hl | exact Hv |].
  eapply Hw; eauto.
Qed.

Lemma at_most_current_present input (w : @World State Step) :
  at_most_current w -> at_most_current (present input w).
Proof.
  intros Hw i p Hl Hv. unfold present in *. simpl in *.
  destruct (decide (i = length (widgets w))) as [->|Hne]; [reflexivity|].
  exfalso. rewrite list_lookup_alter_ne in Hl by congruence.
  unfold dispose_current in Hl. simpl in Hl.
  assert (Hold : forall q, (widgets w ++ [input]) !! i = Some q -> visible q = true ->
                           current w = Some i).
  { intros q Hq Hqv. apply lookup_app_Some in Hq as [Hq|[Hlen Hq]].
    - eapply Hw; eauto.
    - apply list_lookup_singleton_Some in Hq as [Hi _]. lia. }
  destruct (current w) as [c|] eqn:Hc; simpl in Hl.
  - rewrite list_lookup_alter in Hl. destruct (decide (c = i)) as [->|Hci].
    + destruct ((widgets w ++ [input]) !! i); simpl in Hl; [|discriminate].
      injection Hl as <-. simpl in Hv. discriminate.
    + specialize (Hold _ Hl Hv). congruence.
  - specialize (Hold _ Hl Hv). discriminate.
Qed.

Lemma at_most_current_stable : stable (@at_most_current State Step).
Proof.
  split.
  - intros s w Hw. exact Hw.
  - intros l w Hw. exact Hw.
  - intros i ev w Hw j p Hl Hv. simpl in *.
    destruct (lookup_alter_visible (handle ev) _ i j p (handle_visible ev) Hl Hv)
      as (q & Hq & Hqv).
    eapply Hw; eauto.
  - apply at_most_current_present.
Qed.

Lemma at_most_current_loop_stable :
  loop_stable (@at_most_current State Step).
Proof.
  split; [apply at_most_current_stable| |].
  - intros s w Hw i p Hl Hv. unfold enter in *. simpl in *.
    destruct (current w) as [c|] eqn:Hc; simpl in *.
    + destruct (lookup_alter_visible (fun p => set_busy true (set_enabled false p))
                  (widgets w) c i p (fun q H => H) Hl Hv) as (q & Hq & Hqv).
      eapply Hw; eauto.
    + eapply Hw; eauto.
  - intros w Hw. exact Hw.
Qed.

Lemma disposals_app i (tr1 tr2 : list (@Event Step)) :
  disposals i (tr1 ++ tr2) = disposals i tr1 + disposals i tr2.
Proof. unfold disposals. rewrite List.filter_app, length_app. reflexivity. Qed.

Lemma disposals_dispose i j :
  disposals (Step:=Step) i [Disposed j] = if decide (i = j) then 1 else 0.
Proof.
  unfold disposals. simpl. destruct (decide (i = j)) as [->|Hne].
  - rewrite Nat.eqb_refl. reflexivity.
  - apply Nat.eqb_neq in Hne. rewrite Hne. reflexivity.
Qed.

Lemma disposals_show i j :
  disposals (Step:=Step) i [Shown j] = 0.
Proof. reflexivity. Qed.

Lemma current_undisposed_present input (w : @World State Step) :
  current_undisposed w -> current_undisposed (present input w).
Proof.
  intros (Hone & Hfresh & Hcur). unfold current_undisposed, present, dispose_current.
  simpl. destruct (current w) as [c|] eqn:Hc; simpl;
    rewrite ?length_alter, ?length_app; simpl.
  - destruct (Hcur c eq_refl) as [Hlt Hzero].
    assert (Hd : forall i, disposals i ((trace w ++ [Disposed c]) ++ [Shown (length (widgets w))])
                 = disposals i (trace w) + (if decide (i = c) then 1 else 0)).
    { intros i. rewrite !disposals_app, disposals_dispose, disposals_show. lia. }
    split; [|split].
    + intros i. rewrite Hd. destruct (decide (i = c)) as [->|_].
      * rewrite Hzero. lia.
      * specialize (Hone i). lia.
    + intros i Hi. rewrite Hd, decide_False by lia. rewrite Hfresh by lia. reflexivity.
    + intros c' [= <-]. split; [lia|].
      rewrite Hd, decide_False by lia. rewrite Hfresh by lia. reflexivity.
  - assert (Hd : forall i, disposals i (trace w ++ [Shown (length (widgets w))])
                 = disposals i (trace w)).
    { intros i. rewrite disposals_app, disposals_show. lia. }
    split; [|split].
    + intros i. rewrite Hd. apply Hone.
    + intros i Hi. rewrite Hd. apply Hfresh. lia.
    + intros c' [= <-]. split; [lia|]. rewrite Hd. apply Hfresh. lia.
Qed.

Lemma current_undisposed_stable : stable (@current_undisposed State Step).
Proof.
  split.
  - intros s w Hw. exact Hw.
  - intros l w Hw. exact Hw.
  - intros i ev w (Hone & Hfresh & Hcur). unfold current_undisposed, deliver. simpl.
    rewrite length_alter. auto.
  - apply current_undisposed_present.
Qed.

Lemma current_undisposed_enter s (w : @World State Step) :
  current_undisposed w -> current_undisposed (enter s w).
Proof.
  intros (Hone & Hfresh & Hcur). unfold current_undisposed, enter. simpl.
  assert (Hd : forall i, disposals i (trace w ++ [Invoked s]) = disposals i (trace w)).
  { intros i. rewrite disposals_app. unfold disposals at 2. simpl. lia. }
  destruct (current w) as [c|] eqn:Hc; simpl; rewrite ?length_alter, ?Hc;
    repeat split; try (intros; rewrite Hd; auto; fail).
  - apply Hcur; assumption.
  - rewrite Hd. apply Hcur; assumption.
  - discriminate.
  - discriminate.
Qed.

Lemma current_undisposed_loop_stable : loop_stable (@current_undisposed State Step).
Proof.
  split; [apply current_undisposed_stable|apply current_undisposed_enter|].
  intros w Hw. exact Hw.
Qed.

End Invariants.

(** ** The navigation loop *)

Section Loop.

Context {State Step : Type}.
Variable body : Step -> @Prog State Step.

(** A property the loop keeps, and the final disposal too, holds wherever a
    run stops. *)
Lemma stepThrough_stable (I : @World State Step -> Prop) (HI : loop_stable I)
    (Hend : forall w, I w -> I (dispose_current w)) fuel :
  forall step w, I w -> I (snd (stepThrough body fuel step w)).
Proof.
  induction fuel as [|fuel IH]; intros [s|] w Hw; simpl; auto.
  pose proof (exec_stable I (loop_stable_step I HI) (body s) (enter s w)
                (stable_enter I HI s w Hw)) as He.
  destruct (exec (body s) (enter s w)) as [[next|[[]|e]|] w']; simpl in *; auto.
  - apply IH. apply (stable_pop I HI (snd (pop w'))), (stable_pop I HI w'). assumption.
  - apply IH. apply (stable_pop I HI w'). assumption.
Qed.

Lemma steps_enter s (w : @World State Step) : steps (enter s w) = steps w ++ [s].
Proof. unfold enter. simpl. destruct (current w); reflexivity. Qed.

Lemma invocations_enter s (w : @World State Step) :
  invocations (trace (enter s w)) = invocations (trace w) ++ [s].
Proof.
  unfold enter. simpl. destruct (current w); simpl; rewrite invocations_app; reflexivity.
Qed.

Lemma invocations_dispose_current (w : @World State Step) :
  invocations (trace (dispose_current w)) = invocations (trace w).
Proof.
  unfold dispose_current. destruct (current w); simpl; [|reflexivity].
  rewrite invocations_app. simpl. apply app_nil_r.
Qed.

(** A step body leaves the stack alone and invokes no step. *)
Lemma exec_after_enter s (w w' : @World State Step) o :
  exec (body s) (enter s w) = (o, w') ->
  steps w' = steps w ++ [s] /\
  invocations (trace w') = invocations (trace w) ++ [s].
Proof.
  intros He. pose proof (exec_steps (body s) (enter s w)) as H1.
  pose proof (exec_invocations (body s) (enter s w)) as H2.
  rewrite He, steps_enter in H1. rewrite He, invocations_enter in H2. auto.
Qed.

Lemma pop_snoc (w : @World State Step) l s :
  steps w = l ++ [s] -> pop w = (Some s, set_steps l w).
Proof. intros H. unfold pop. rewrite H, last_snoc, removelast_last. reflexivity. Qed.

(** What [catch] does with the Back signal. *)
Lemma back_rule fuel s (w w' : @World State Step) :
  exec (body s) (enter s w) = (Raised (Flow back), w') ->
  stepThrough body (S fuel) (Some s) w
  = stepThrough body fuel (last (steps w)) (set_steps (removelast (steps w)) w').
Proof.
  intros He. destruct (exec_after_enter _ _ _ _ He) as [Hst _].
  simpl. rewrite He, Hst, removelast_last. reflexivity.
Qed.

(** C1: when a step raises Back, the stack is popped twice: the first pop
    yields the step that raised Back, the second the step entered before it,
    and the loop goes on with that prior step as the current step, on the
    stack as it was below it.  Entering it pushes it again, so the prior step
    runs a second time on the stack it ran on the first time.  In particular
    when the prior step A was the first of the run and returned s, and s
    raises Back, the steps invoked up to the moment A runs again are A, s, A
    and the stack is [A]. *)
Theorem C1_back_reenters_prior_step (fuel : nat) (s prior : Step) (rest : list Step)
    (w w' : @World State Step) :
  steps w = rest ++ [prior] ->
  exec (body s) (enter s w) = (Raised (Flow back), w') ->
  let again := enter prior (set_steps rest w') in
  pop w' = (Some s, set_steps (rest ++ [prior]) w') /\
  pop (snd (pop w')) = (Some prior, set_steps rest w') /\
  stepThrough body (S fuel) (Some s) w
    = stepThrough body fuel (Some prior) (set_steps rest w') /\
  steps again = steps w /\
  invocations (trace again) = invocations (trace w) ++ [s; prior] /\
  (forall first, rest = [] -> steps first = [] ->
     exec (body prior) (enter prior first) = (Returned (Some s), w) ->
     stepThrough body (S (S fuel)) (Some prior) first
       = stepThrough body fuel (Some prior) (set_steps [] w') /\
     steps again = [prior] /\
     invocations (trace again) = invocations (trace first) ++ [prior; s; prior]).
Proof.
  intros Hw He again.
  destruct (exec_after_enter _ _ _ _ He) as [Hst Hinv].
  assert (Hpop1 : pop w' = (Some s, set_steps (rest ++ [prior]) w')).
  { apply pop_snoc. rewrite Hst, Hw. reflexivity. }
  assert (Hpop2 : pop (snd (pop w')) = (Some prior, set_steps rest w')).
  { rewrite Hpop1. simpl. apply (pop_snoc (set_steps (rest ++ [prior]) w')). reflexivity. }
  assert (Hloop : stepThrough body (S fuel) (Some s) w
                  = stepThrough body fuel (Some prior) (set_steps rest w')).
  { rewrite (back_rule fuel s w w' He), Hw, last_snoc, removelast_last. reflexivity. }
  assert (Hagain : steps again = steps w).
  { unfold again. rewrite steps_enter. simpl. symmetry. exact Hw. }
  assert (Hseen : invocations (trace again) = invocations (trace w) ++ [s; prior]).
  { unfold again. rewrite invocations_enter. simpl. rewrite Hinv, <- app_assoc. reflexivity. }
  split; [exact Hpop1|]. split; [exact Hpop2|]. split; [exact Hloop|].
  split; [exact Hagain|]. split; [exact Hseen|].
  intros first Hrest Hfirst Hprior. subst rest.
  destruct (exec_after_enter _ _ _ _ Hprior) as [_ Hinv0].
  split; [|split].
  - simpl. rewrite Hprior. exact Hloop.
  - rewrite Hagain, Hw. reflexivity.
  - rewrite Hseen, Hinv0, <- app_assoc. reflexivity.
Qed.

(** C6: when the first step of a run, entered on an empty stack, raises
    Back, the second pop finds the stack empty and yields no step: the loop
    ends, the current prompt is disposed and the run completes normally,
    with no other step invoked. *)
Theorem C6_back_from_first_step (fuel : nat) (s : Step) (w w' : @World State Step) :
  steps w = [] ->
  exec (body s) (enter s w) = (Raised (Flow back), w') ->
  pop (snd (pop w')) = (None, set_steps [] w') /\
  stepThrough body (S fuel) (Some s) w
    = (Completed, dispose_current (set_steps [] w')) /\
  invocations (trace (dispose_current (set_steps [] w'))) = invocations (trace w) ++ [s].
Proof.
  intros Hw He. destruct (exec_after_enter _ _ _ _ He) as [Hst Hinv].
  rewrite Hw in Hst. simpl in Hst. split; [|split].
  - unfold pop. simpl. rewrite Hst. reflexivity.
  - rewrite (back_rule fuel s w w' He), Hw. simpl. destruct fuel; reflexivity.
  - rewrite invocations_dispose_current. exact Hinv.
Qed.

Lemma failure_rule fuel s (w w' : @World State Step) e :
  exec (body s) (enter s w) = (Raised (Failure e), w') ->
  stepThrough body (S fuel) (Some s) w = (Failed e, w').
Proof. intros He. simpl. rewrite He. reflexivity. Qed.

Lemma cancel_rule fuel s (w w' : @World State Step) :
  exec (body s) (enter s w) = (Raised (Flow cancel), w') ->
  stepThrough body (S fuel) (Some s) w = (Completed, dispose_current w').
Proof. intros He. simpl. rewrite He. destruct fuel; reflexivity. Qed.

Lemma end_rule fuel s (w w' : @World State Step) :
  exec (body s) (enter s w) = (Returned None, w') ->
  stepThrough body (S fuel) (Some s) w = (Completed, dispose_current w').
Proof. intros He. simpl. rewrite He. destruct fuel; reflexivity. Qed.

Lemma steps_dispose_current (w : @World State Step) :
  steps (dispose_current w) = steps w.
Proof. unfold dispose_current. destruct (current w); reflexivity. Qed.

(** While the loop goes on, the current prompt has not been disposed. *)
Lemma current_undisposed_step s (w w' : @World State Step) o :
  current_undisposed w -> exec (body s) (enter s w) = (o, w') -> current_undisposed w'.
Proof.
  intros Hw He.
  pose proof (exec_stable _ current_undisposed_stable (body s) (enter s w)
                (current_undisposed_enter s w Hw)) as H.
  rewrite He in H. exact H.
Qed.

Lemma current_undisposed_create (s0 : State) events :
  current_undisposed (create (Step:=Step) s0 events).
Proof.
  split; [|split]; simpl.
  - intros i. unfold disposals. simpl. lia.
  - reflexivity.
  - discriminate.
Qed.

Lemma current_dispose_current (w : @World State Step) :
  current (dispose_current w) = current w.
Proof. unfold dispose_current. destruct (current w) eqn:E; simpl; congruence. Qed.

(** The disposal at the end of the loop is the first one of the current
    prompt. *)
Lemma dispose_current_once (w : @World State Step) :
  current_undisposed w ->
  (forall i, disposals i (trace (dispose_current w)) <= 1) /\
  (forall c, current w = Some c -> disposals c (trace (dispose_current w)) = 1).
Proof.
  intros (Hone & Hfresh & Hcur). unfold dispose_current. split.
  - intros i. destruct (current w) as [c|] eqn:Hc; simpl; [|apply Hone].
    rewrite disposals_app, disposals_dispose.
    destruct (decide (i = c)) as [->|_].
    + destruct (Hcur c eq_refl) as [_ ->]. lia.
    + specialize (Hone i). lia.
  - intros c Hc. rewrite Hc. simpl. destruct (Hcur c Hc) as [_ Hzero].
    rewrite disposals_app, disposals_dispose, Hzero, decide_True by reflexivity.
    reflexivity.
Qed.

(** Every run that completes on a runner whose current prompt was not
    disposed before (a new runner, for one) has disposed the prompt it ends
    with exactly once, and no prompt twice. *)
Lemma completed_run_disposes_once fuel :
  forall step (w final : @World State Step),
    current_undisposed w ->
    stepThrough body fuel step w = (Completed, final) ->
    (forall i, disposals i (trace final) <= 1) /\
    (forall c, current final = Some c -> disposals c (trace final) = 1).
Proof.
  induction fuel as [|fuel IH]; intros [s|] w final Hw Hrun; simpl in Hrun;
    try discriminate Hrun.
  1, 3: injection Hrun as <-; destruct (dispose_current_once w Hw) as [H1 H2];
        split; [exact H1|]; intros c Hc; rewrite current_dispose_current in Hc; auto.
  destruct (exec (body s) (enter s w)) as [o w'] eqn:He.
  pose proof (current_undisposed_step s w w' o Hw He) as Hw'.
  destruct o as [next|[[]|e]|]; try discriminate Hrun.
  - apply (IH next w'); assumption.
  - apply (IH (last (removelast (steps w')))
              (set_steps (removelast (removelast (steps w'))) w')); assumption.
  - apply (IH None w'); assumption.
  - apply (IH (last (steps w')) (set_steps (removelast (steps w')) w')); assumption.
Qed.

Lemma shown_undisposed_present input (w : @World State Step) :
  shown_undisposed w -> shown_undisposed (present input w).
Proof.
  intros (Hvis & Hfresh & Hcur). unfold shown_undisposed, present, dispose_current.
  simpl.
  assert (Hold : forall i p, i <> length (widgets w) ->
            (widgets w ++ [input]) !! i = Some p -> widgets w !! i = Some p).
  { intros i p Hi Hl. apply lookup_app_Some in Hl as [Hl|[Hlen Hl]]; [exact Hl|].
    apply list_lookup_singleton_Some in Hl as [Hl _]. lia. }
  destruct (current w) as [c|] eqn:Hc; simpl;
    rewrite ?length_alter, ?length_app; simpl.
  - pose proof (Hcur c eq_refl) as Hlt.
    assert (Hd : forall i, disposals i ((trace w ++ [Disposed c]) ++ [Shown (length (widgets w))])
                 = disposals i (trace w) + (if decide (i = c) then 1 else 0)).
    { intros i. rewrite !disposals_app, disposals_dispose, disposals_show. lia. }
    split; [|split].
    + intros i p Hl Hv. rewrite Hd.
      destruct (decide (i = length (widgets w))) as [->|Hne].
      * rewrite decide_False by lia. rewrite Hfresh by lia. reflexivity.
      * rewrite list_lookup_alter_ne in Hl by congruence.
        rewrite list_lookup_alter in Hl. destruct (decide (c = i)) as [->|Hci].
        -- destruct ((widgets w ++ [input]) !! i); simpl in Hl; [|discriminate].
           injection Hl as <-. simpl in Hv. discriminate.
        -- rewrite decide_False by congruence.
           rewrite (Hvis i p (Hold i p Hne Hl) Hv). reflexivity.
    + intros i Hi. rewrite Hd, decide_False by lia. rewrite Hfresh by lia. reflexivity.
    + intros c' [= <-]. lia.
  - assert (Hd : forall i, disposals i (trace w ++ [Shown (length (widgets w))])
                 = disposals i (trace w)).
    { intros i. rewrite disposals_app, disposals_show. lia. }
    split; [|split].
    + intros i p Hl Hv. rewrite Hd.
      destruct (decide (i = length (widgets w))) as [->|Hne].
      * apply Hfresh. lia.
      * rewrite list_lookup_alter_ne in Hl by congruence.
        apply (Hvis i p (Hold i p Hne Hl) Hv).
    + intros i Hi. rewrite Hd. apply Hfresh. lia.
    + intros c' [= <-]. lia.
Qed.

Lemma shown_undisposed_loop_stable : loop_stable (@shown_undisposed State Step).
Proof.
  split; [split|..].
  - intros st w Hw. exact Hw.
  - intros l w Hw. exact Hw.
  - intros i ev w (Hvis & Hfresh & Hcur). unfold shown_undisposed, deliver. simpl.
    rewrite length_alter. split; [|auto]. intros j p Hl Hv.
    destruct (lookup_alter_visible (handle ev) (widgets w) i j p (handle_visible ev) Hl Hv)
      as (q & Hq & Hqv).
    apply (Hvis j q Hq Hqv).
  - apply shown_undisposed_present.
  - intros st w (Hvis & Hfresh & Hcur). unfold shown_undisposed, enter. simpl.
    assert (Hd : forall i, disposals i (trace w ++ [Invoked st]) = disposals i (trace w)).
    { intros i. rewrite disposals_app. unfold disposals at 2. simpl. lia. }
    destruct (current w) as [c|] eqn:Hc; simpl; rewrite ?length_alter.
    + split; [|split].
      * intros i p Hl Hv. rewrite Hd.
        destruct (lookup_alter_visible (fun p => set_busy true (set_enabled false p))
                    (widgets w) c i p (fun q H => H) Hl Hv) as (q & Hq & Hqv).
        apply (Hvis i q Hq Hqv).
      * intros i Hi. rewrite Hd. auto.
      * intros c' Hc'. apply Hcur. congruence.
    + split; [|split].
      * intros i p Hl Hv. rewrite Hd. eauto.
      * intros i Hi. rewrite Hd. auto.
      * intros c' Hc'. apply Hcur. congruence.
  - intros w Hw. exact Hw.
Qed.

Lemma shown_undisposed_dispose_current (w : @World State Step) :
  shown_undisposed w -> shown_undisposed (dispose_current w).
Proof.
  intros (Hvis & Hfresh & Hcur). unfold shown_undisposed, dispose_current.
  destruct (current w) as [c|] eqn:Hc; simpl; [|rewrite Hc; auto].
  rewrite length_alter, Hc. pose proof (Hcur c eq_refl) as Hlt.
  split; [|split].
  - intros i p Hl Hv. rewrite disposals_app, disposals_dispose.
    rewrite list_lookup_alter in Hl. destruct (decide (c = i)) as [->|Hci].
    + destruct (widgets w !! i); simpl in Hl; [|discriminate].
      injection Hl as <-. simpl in Hv. discriminate.
    + rewrite decide_False by congruence. rewrite (Hvis i p Hl Hv). reflexivity.
  - intros i Hi. rewrite disposals_app, disposals_dispose, decide_False by lia.
    rewrite Hfresh by lia. reflexivity.
  - exact Hcur.
Qed.

(** A prompt on screen has not been disposed, on a new runner and wherever a
    run stops, on a runner that has been used before too. *)
Lemma shown_undisposed_run fuel step (w : @World State Step) :
  shown_undisposed w -> shown_undisposed (snd (stepThrough body fuel step w)).
Proof.
  apply (stepThrough_stable _ shown_undisposed_loop_stable
           shown_undisposed_dispose_current).
Qed.

Lemma shown_undisposed_create (s0 : State) events :
  shown_undisposed (create (Step:=Step) s0 events).
Proof.
  split; [|split]; simpl.
  - intros i p Hl. destruct i; discriminate Hl.
  - reflexivity.
  - discriminate.
Qed.

(** C3: when a step raises Cancel, whatever is on the stack and whatever the
    runner did before, the loop ends at once: the run completes normally (it
    does not fail), no step is invoked after the cancelling one, and the only
    action taken is one disposal of the current prompt, if there is one, so
    that its count of disposals goes up by one and no other count changes.
    A prompt that is active, that is current and on screen, has not been
    disposed before on any runner that was used through [run] only: it has
    then been disposed exactly once.  On a runner whose current prompt had
    not been disposed before no prompt has been disposed more than once. *)
Theorem C3_cancel_ends_the_run (fuel : nat) (s : Step) (w w' : @World State Step) :
  exec (body s) (enter s w) = (Raised (Flow cancel), w') ->
  let final := dispose_current w' in
  stepThrough body (S fuel) (Some s) w = (Completed, final) /\
  invocations (trace final) = invocations (trace w) ++ [s] /\
  steps final = steps w ++ [s] /\
  (current w' = None -> final = w') /\
  (forall c, current w' = Some c ->
     trace final = trace w' ++ [Disposed c] /\
     disposals c (trace final) = S (disposals c (trace w')) /\
     (forall i, i <> c -> disposals i (trace final) = disposals i (trace w')) /\
     (forall p, widgets w' !! c = Some p -> widgets final !! c = Some (dispose p))) /\
  (shown_undisposed w ->
     forall c p, current w' = Some c -> widgets w' !! c = Some p -> visible p = true ->
       disposals c (trace final) = 1) /\
  (current_undisposed w ->
     (forall c, current w' = Some c -> disposals c (trace final) = 1) /\
     (forall i, disposals i (trace final) <= 1)).
Proof.
  intros He final.
  destruct (exec_after_enter _ _ _ _ He) as [Hst Hinv].
  split; [apply cancel_rule; assumption|].
  split; [unfold final; rewrite invocations_dispose_current; exact Hinv|].
  split; [unfold final; rewrite steps_dispose_current; exact Hst|].
  split; [intros Hnone; unfold final, dispose_current; rewrite Hnone; reflexivity|].
  assert (Hcount : forall c, current w' = Some c ->
            forall i, disposals i (trace final)
                      = disposals i (trace w') + (if decide (i = c) then 1 else 0)).
  { intros c Hc i. unfold final, dispose_current. rewrite Hc. simpl.
    rewrite disposals_app, disposals_dispose. reflexivity. }
  split; [|split].
  - intros c Hc. split; [|split; [|split]].
    + unfold final, dispose_current. rewrite Hc. reflexivity.
    + rewrite (Hcount c Hc), decide_True by reflexivity. lia.
    + intros i Hi. rewrite (Hcount c Hc), decide_False by assumption. lia.
    + intros p Hp. unfold final, dispose_current. rewrite Hc. simpl.
      rewrite list_lookup_alter_eq, Hp. reflexivity.
  - intros Hw c p Hc Hp Hv.
    pose proof (exec_stable _ (loop_stable_step _ shown_undisposed_loop_stable)
                  (body s) (enter s w)
                  (stable_enter _ shown_undisposed_loop_stable s w Hw)) as Hw'.
    rewrite He in Hw'. simpl in Hw'. destruct Hw' as (Hvis & _ & _).
    rewrite (Hcount c Hc), decide_True by reflexivity.
    rewrite (Hvis c p Hp Hv). reflexivity.
  - intros Hw. destruct (current_undisposed_step _ _ _ _ Hw He) as (Hone & Hfresh & Hcur).
    split.
    + intros c Hc. destruct (Hcur c Hc) as [_ Hzero].
      rewrite (Hcount c Hc), decide_True by reflexivity. rewrite Hzero. reflexivity.
    + intros i. destruct (current w') as [c|] eqn:Hc.
      * rewrite (Hcount c eq_refl). destruct (decide (i = c)) as [->|_].
        -- destruct (Hcur c eq_refl) as [_ ->]. lia.
        -- specialize (Hone i). lia.
      * unfold final, dispose_current. rewrite Hc. apply Hone.
Qed.

(** C5 (as amended): the stack belongs to the runner, which is created with
    an empty one, and the loop never clears it.  When a run ends because a
    step returned no next step, raised Cancel or raised a failure, the stack
    is what it was when that step was entered with the step itself on top:
    every entry that was not popped by a Back or a Resume outlives the run. *)
Theorem C5_stack_outlives_the_run (fuel : nat) (s : Step) (w w' : @World State Step)
    (o : @Outcome Step) :
  exec (body s) (enter s w) = (o, w') ->
  o = Returned None \/ o = Raised (Flow cancel) \/ (exists e, o = Raised (Failure e)) ->
  (forall (s0 : State) events, steps (create (Step:=Step) s0 events) = []) /\
  exists r final,
    stepThrough body (S fuel) (Some s) w = (r, final) /\
    (r = Completed \/ exists e, r = Failed e) /\
    steps final = steps w ++ [s] /\
    last (steps final) = Some s.
Proof.
  intros He Ho. destruct (exec_after_enter _ _ _ _ He) as [Hst _].
  split; [reflexivity|].
  destruct Ho as [->|[->|[e ->]]].
  - exists Completed, (dispose_current w'). rewrite steps_dispose_current, Hst, last_snoc.
    split; [apply end_rule; assumption|]. auto.
  - exists Completed, (dispose_current w'). rewrite steps_dispose_current, Hst, last_snoc.
    split; [apply cancel_rule; assumption|]. auto.
  - exists (Failed e), w'. rewrite Hst, last_snoc.
    split; [apply failure_rule; assumption|]. eauto.
Qed.

(** C8: a new prompt takes the place of the current one in this order: the
    current prompt is disposed, whatever its state, then the new one is
    shown.  So only the current prompt can be on screen, never two prompts at
    once: this holds on a new runner, is kept by [showQuickPick] and
    [showInputBox], and holds in every state a run stops in. *)
Theorem C8_one_prompt_at_a_time (w : @World State Step) :
  at_most_current w ->
  (forall q c, current w = Some c ->
     trace (showQuickPick q w) = trace w ++ [Disposed c; Shown (length (widgets w))]) /\
  (forall b c, current w = Some c ->
     trace (showInputBox b w) = trace w ++ [Disposed c; Shown (length (widgets w))]) /\
  (forall q c old, current w = Some c -> widgets w !! c = Some old ->
     widgets (showQuickPick q w) !! c = Some (dispose old)) /\
  (forall b c old, current w = Some c -> widgets w !! c = Some old ->
     widgets (showInputBox b w) !! c = Some (dispose old)) /\
  (forall q, at_most_current (showQuickPick q w)) /\
  (forall b, at_most_current (showInputBox b w)) /\
  (forall fuel step, at_most_current (snd (stepThrough body fuel step w))) /\
  (forall i j p q, widgets w !! i = Some p -> widgets w !! j = Some q ->
     visible p = true -> visible q = true -> i = j).
Proof.
  intros Hw.
  assert (Htrace : forall input c, current w = Some c ->
            trace (present input w) = trace w ++ [Disposed c; Shown (length (widgets w))]).
  { intros input c Hc. unfold present, dispose_current. simpl. rewrite Hc. simpl.
    rewrite <- app_assoc. reflexivity. }
  assert (Hold : forall input c old, current w = Some c -> widgets w !! c = Some old ->
            widgets (present input w) !! c = Some (dispose old)).
  { intros input c old Hc Hl. pose proof (lookup_lt_Some _ _ _ Hl) as Hlt.
    unfold present, dispose_current. simpl. rewrite Hc. simpl.
    rewrite list_lookup_alter_ne by lia.
    rewrite list_lookup_alter_eq, lookup_app_l, Hl by assumption. reflexivity. }
  split; [intros q c; apply Htrace|]. split; [intros b c; apply Htrace|].
  split; [intros q c old; apply Hold|]. split; [intros b c old; apply Hold|].
  split; [intros q; apply at_most_current_present, Hw|].
  split; [intros b; apply at_most_current_present, Hw|].
  split.
  - intros fuel step.
    apply (stepThrough_stable _ at_most_current_loop_stable
             at_most_current_dispose_current). exact Hw.
  - intros i j p q Hp Hq Hpv Hqv.
    pose proof (Hw i p Hp Hpv) as Hi. pose proof (Hw j q Hq Hqv) as Hj. congruence.
Qed.

End Loop.

(** ** The Back button *)

Section Buttons.

Context {State Step : Type}.

Lemma present_lookup input (w : @World State Step) :
  exists p,
    widgets (present input w) !! length (widgets w) = Some p /\
    current (present input w) = Some (length (widgets w)) /\
    visible p = true /\ buttons p = buttons input /\ promise p = promise input /\
    source p = source input.
Proof.
  unfold present, dispose_current. simpl.
  assert (Hin : (widgets w ++ [input]) !! length (widgets w) = Some input).
  { apply list_lookup_middle. reflexivity. }
  destruct (current w) as [c|]; simpl; rewrite list_lookup_alter_eq.
  - rewrite list_lookup_alter. destruct (decide (c = length (widgets w))) as [->|_];
      rewrite Hin; simpl; eexists; (split; [reflexivity|]); simpl; auto.
  - rewrite Hin. simpl. eexists. split; [reflexivity|]. simpl. auto.
Qed.

Lemma press_back_rejects p :
  promise p = Pending -> promise (handle (TriggerButton Back) p) = Rejected back.
Proof. intros Hp. unfold_handlers. simpl. rewrite Hp. simpl. rewrite ?Hp. reflexivity. Qed.

Lemma await_press_back id rest (w : @World State Step) p :
  widgets w !! id = Some p -> promise p = Pending ->
  await id (set_script ((id, TriggerButton Back) :: rest) w)
  = (Some (Thrown back),
     set_script rest (deliver id (TriggerButton Back) w)).
Proof.
  intros Hl Hp. unfold await. simpl. rewrite Hl. simpl. rewrite Hp.
  assert (Hs : settled (alter (handle (TriggerButton Back)) id (widgets w) !! id)
               = Some (Thrown back)).
  { rewrite list_lookup_alter_eq, Hl.
    change (settled (Some (handle (TriggerButton Back) p)) = Some (Thrown back)).
    unfold settled. rewrite (press_back_rejects p Hp). reflexivity. }
  destruct rest as [|[i ev] rest]; simpl; rewrite Hs; reflexivity.
Qed.

Lemma exec_ShowQuickPick q (k : Settled -> @Prog State Step) (w : @World State Step) :
  exec (ShowQuickPick q k) w
  = match await (length (widgets w)) (showQuickPick q w) with
    | (Some r, w') => exec (k r) w'
    | (None, w') => (Hung, w')
    end.
Proof. reflexivity. Qed.

Lemma showQuickPick_set_script q l (w : @World State Step) :
  showQuickPick q (set_script l w) = set_script l (showQuickPick q w).
Proof.
  unfold showQuickPick, present, dispose_current. simpl.
  destruct (current w); reflexivity.
Qed.

(** C7: the quick pick gets the Back button in front of the caller's own
    buttons exactly when the stack holds more than one step at the moment
    [showQuickPick] creates it; and pressing Back on it rejects the promise
    of [showQuickPick] with the Back signal instead of resolving it, so that
    a step awaiting the prompt raises Back. *)
Theorem C7_back_button (q : IQuickPickParameters) (w : @World State Step) :
  let id := length (widgets w) in
  let extra := or_default (qp_buttons q) [] in
  exists p,
    widgets (showQuickPick q w) !! id = Some p /\
    current (showQuickPick q w) = Some id /\
    visible p = true /\
    promise p = Pending /\
    (1 < length (steps w) -> buttons p = Back :: extra) /\
    (length (steps w) <= 1 -> buttons p = extra) /\
    (Back ∉ extra -> (Back ∈ buttons p <-> 1 < length (steps w))) /\
    promise (handle (TriggerButton Back) p) = Rejected back /\
    (forall rest, fst (await id (set_script ((id, TriggerButton Back) :: rest)
                                   (showQuickPick q w))) = Some (Thrown back)) /\
    (forall k rest,
       fst (exec (ShowQuickPick q (uncaught k))
              (set_script ((id, TriggerButton Back) :: rest) w))
       = Raised (Flow back)).
Proof.
  intros id extra.
  destruct (present_lookup (createQuickPick w q) w) as (p & Hl & Hc & Hv & Hb & Hp & _).
  simpl in Hb, Hp. fold id in Hl, Hc. fold extra in Hb.
  exists p. unfold showQuickPick.
  split; [exact Hl|]. split; [exact Hc|]. split; [exact Hv|]. split; [exact Hp|].
  unfold buttons_for in Hb. fold extra in Hb.
  split; [|split; [|split; [|split; [|split]]]].
  - intros Hlen. apply Nat.ltb_lt in Hlen. rewrite Hlen in Hb. exact Hb.
  - intros Hlen. apply Nat.ltb_ge in Hlen. rewrite Hlen in Hb. exact Hb.
  - intros Hextra. rewrite Hb. destruct (1 <? length (steps w)) eqn:Hlen; simpl.
    + apply Nat.ltb_lt in Hlen. split; [auto|]. intros _. apply list_elem_of_here.
    + apply Nat.ltb_ge in Hlen. split; [contradiction|lia].
  - apply press_back_rejects, Hp.
  - intros rest. rewrite (await_press_back id rest _ p Hl Hp). reflexivity.
  - intros k rest. rewrite exec_ShowQuickPick, showQuickPick_set_script.
    change (length (widgets (set_script ((id, TriggerButton Back) :: rest) w))) with id.
    unfold showQuickPick. rewrite (await_press_back id rest _ p Hl Hp). reflexivity.
Qed.

End Buttons.

(** ** Runs of the three-page wizard *)

(** C2: a step that fails after its prompt was answered.  The run surfaces
    the failure at once and the step is not invoked again, but the prompt is
    left as it is: current, on screen, and never disposed. *)
Theorem C2_failure_leaves_prompt_open :
  exists final p,
    run Wizard.pages_fail 3 Wizard.A Runs.fail_start = (Failed "boom", final) /\
    invocations (trace final) = [Wizard.A] /\
    trace final = [Invoked Wizard.A; Shown 0] /\
    current final = Some 0 /\
    widgets final !! 0 = Some p /\
    visible p = true /\ disposed p = false /\
    disposals 0 (trace final) = 0.
Proof.
  eexists. eexists. split; [vm_compute; reflexivity|].
  repeat split; reflexivity.
Qed.

(** C5, refuted as stated: after a run that ended normally the stack still
    holds the two steps of that run, and a second run on the same runner
    starts on top of them: its first prompt already carries the Back
    button. *)
Lemma C5_stack_survives :
  fst (run Wizard.pages 3 Wizard.A Runs.end_start) = Completed /\
  steps (snd (run Wizard.pages 3 Wizard.A Runs.end_start)) = [Wizard.A; Wizard.B] /\
  steps (snd (run Wizard.pages 3 Wizard.A Runs.end_start)) <> [] /\
  steps Runs.second_start = [Wizard.A; Wizard.B] /\
  buttons <$> widgets (snd (run Wizard.pages 3 Wizard.A Runs.second_start)) !! 2
    = Some [Back].
Proof. vm_compute. repeat split; discriminate. Qed.

(** The wizard where Back is pressed on page B. *)
Lemma C1_back_witness :
  steps Runs.back_on_B = [] ++ [Wizard.A] /\
  exec (Wizard.pages Wizard.B) (enter Wizard.B Runs.back_on_B)
    = (Raised (Flow back), Runs.back_raised) /\
  stepThrough Wizard.pages 3 (Some Wizard.A) Runs.back_start
    = stepThrough Wizard.pages 1 (Some Wizard.A) (set_steps [] Runs.back_raised) /\
  steps (enter Wizard.A (set_steps [] Runs.back_raised)) = [Wizard.A] /\
  invocations (trace (enter Wizard.A (set_steps [] Runs.back_raised)))
    = [Wizard.A; Wizard.B; Wizard.A].
Proof.
  assert (H1 : steps Runs.back_on_B = [] ++ [Wizard.A]) by (vm_compute; reflexivity).
  assert (H2 : exec (Wizard.pages Wizard.B) (enter Wizard.B Runs.back_on_B)
               = (Raised (Flow back), Runs.back_raised)) by (vm_compute; reflexivity).
  assert (H3 : exec (Wizard.pages Wizard.A) (enter Wizard.A Runs.back_start)
               = (Returned (Some Wizard.B), Runs.back_on_B)) by (vm_compute; reflexivity).
  destruct (C1_back_reenters_prior_step Wizard.pages 1 Wizard.B Wizard.A []
              Runs.back_on_B Runs.back_raised H1 H2) as (_ & _ & _ & _ & _ & Hchain).
  assert (H4 : steps Runs.back_start = []) by (vm_compute; reflexivity).
  destruct (Hchain Runs.back_start eq_refl H4 H3) as (Hloop & Hst & Hinv).
  split; [exact H1|]. split; [exact H2|]. split; [exact Hloop|].
  split; [exact Hst|]. vm_compute in Hinv. vm_compute. exact Hinv.
Defined.

(** The wizard where page B cancels, on a new runner and then once more on
    the same runner. *)
Lemma C3_cancel_witness :
  exec (Wizard.pages_cancel Wizard.B) (enter Wizard.B Runs.cancel_on_B)
    = (Raised (Flow cancel), Runs.cancel_raised) /\
  stepThrough Wizard.pages_cancel 1 (Some Wizard.B) Runs.cancel_on_B
    = (Completed, dispose_current Runs.cancel_raised) /\
  invocations (trace (dispose_current Runs.cancel_raised)) = [Wizard.A; Wizard.B] /\
  disposals 1 (trace (dispose_current Runs.cancel_raised)) = 1 /\
  exec (Wizard.pages_cancel Wizard.B) (enter Wizard.B Cases.reused_on_B)
    = (Raised (Flow cancel), Cases.reused_raised) /\
  stepThrough Wizard.pages_cancel 1 (Some Wizard.B) Cases.reused_on_B
    = (Completed, dispose_current Cases.reused_raised) /\
  disposals 3 (trace (dispose_current Cases.reused_raised)) = 1.
Proof.
  assert (H1 : current_undisposed Runs.cancel_on_B).
  { split; [|split].
    - intros i. vm_compute. lia.
    - intros i _. vm_compute. reflexivity.
    - intros c Hc. vm_compute in Hc. injection Hc as <-.
      split; vm_compute; [lia|reflexivity]. }
  assert (H2 : exec (Wizard.pages_cancel Wizard.B) (enter Wizard.B Runs.cancel_on_B)
               = (Raised (Flow cancel), Runs.cancel_raised)) by (vm_compute; reflexivity).
  destruct (C3_cancel_ends_the_run Wizard.pages_cancel 0 Wizard.B
              Runs.cancel_on_B Runs.cancel_raised H2)
    as (Hrun & Hinv & _ & _ & _ & _ & Hnew).
  assert (H3 : current Runs.cancel_raised = Some 1) by (vm_compute; reflexivity).
  destruct (Hnew H1) as [Honce _].
  assert (H4 : shown_undisposed Cases.reused_on_B).
  { split; [|split].
    - intros i p Hl Hv. destruct i as [|[|[|i]]]; vm_compute in Hl;
        try discriminate Hl; injection Hl as <-;
        first [discriminate Hv | vm_compute; reflexivity].
    - intros i Hi. vm_compute in Hi. destruct i as [|[|[|i]]]; try lia.
      vm_compute. reflexivity.
    - intros c Hc. vm_compute in Hc. injection Hc as <-. vm_compute. lia. }
  assert (H5 : exec (Wizard.pages_cancel Wizard.B) (enter Wizard.B Cases.reused_on_B)
               = (Raised (Flow cancel), Cases.reused_raised)) by (vm_compute; reflexivity).
  destruct (C3_cancel_ends_the_run Wizard.pages_cancel 0 Wizard.B
              Cases.reused_on_B Cases.reused_raised H5)
    as (Hrun2 & _ & _ & _ & _ & Hactive & _).
  assert (H6 : current Cases.reused_raised = Some 3) by (vm_compute; reflexivity).
  assert (H7 : exists p, widgets Cases.reused_raised !! 3 = Some p /\ visible p = true)
    by (eexists; split; [vm_compute; reflexivity|reflexivity]).
  destruct H7 as (p & Hl & H7).
  split; [exact H2|]. split; [exact Hrun|].
  split; [vm_compute in Hinv; vm_compute; exact Hinv|].
  split; [exact (Honce 1 H3)|].
  split; [exact H5|]. split; [exact Hrun2|].
  exact (Hactive H4 3 p H6 Hl H7).
Defined.

(** "a" then "ab" typed into the name box, the validation of "a"
    resolving last. *)
Lemma C4_typing_witness :
  source Wizard.shown_box = InputBoxOf Wizard.name_box /\
  promise Wizard.shown_box = Pending /\
  validationMessage
    (handle_all [ChangeValue "a"; ChangeValue "ab"; Settle 2; Settle 1] Wizard.shown_box)
    = None /\
  validationMessage (handle_all [ChangeValue "a"; Settle 1] Wizard.shown_box)
    = Some "too short".
Proof.
  assert (H1 : source Wizard.shown_box = InputBoxOf Wizard.name_box) by (vm_compute; reflexivity).
  assert (H2 : promise Wizard.shown_box = Pending) by (vm_compute; reflexivity).
  destruct (C4_last_issued_wins Wizard.name_box Wizard.shown_box H1 H2) as [_ Hab].
  assert (Ha : validate Wizard.name_box "a" = Some "too short")
    by (vm_compute; reflexivity).
  assert (Hb : validate Wizard.name_box "ab" = None) by (vm_compute; reflexivity).
  assert (Hm : validationMessage Wizard.shown_box = None) by (vm_compute; reflexivity).
  destruct (Hab "too short" Ha Hb Hm) as (_ & _ & _ & Hlast & _ & _ & Hfirst).
  split; [exact H1|]. split; [exact H2|].
  split; [vm_compute in Hlast|vm_compute in Hfirst]; vm_compute; assumption.
Defined.

(** The wizard that ends on page B. *)
Lemma C5_stack_witness :
  exec (Wizard.pages Wizard.B) (enter Wizard.B Runs.end_on_B)
    = (Returned None, Runs.end_returned) /\
  exists r final,
    stepThrough Wizard.pages 1 (Some Wizard.B) Runs.end_on_B = (r, final) /\
    (r = Completed \/ exists e, r = Failed e) /\
    steps final = steps Runs.end_on_B ++ [Wizard.B] /\
    last (steps final) = Some Wizard.B.
Proof.
  assert (H1 : exec (Wizard.pages Wizard.B) (enter Wizard.B Runs.end_on_B)
               = (Returned None, Runs.end_returned)) by (vm_compute; reflexivity).
  split; [exact H1|].
  apply (C5_stack_outlives_the_run Wizard.pages 0 Wizard.B Runs.end_on_B
           Runs.end_returned (Returned None) H1).
  left. reflexivity.
Defined.

(** The wizard where Back is pressed on the first page. *)
Lemma C6_first_step_witness :
  steps Runs.first_start = [] /\
  exec (Wizard.pages_back_first Wizard.A) (enter Wizard.A Runs.first_start)
    = (Raised (Flow back), Runs.first_raised) /\
  stepThrough Wizard.pages_back_first 1 (Some Wizard.A) Runs.first_start
    = (Completed, dispose_current (set_steps [] Runs.first_raised)).
Proof.
  assert (H1 : steps Runs.first_start = []) by (vm_compute; reflexivity).
  assert (H2 : exec (Wizard.pages_back_first Wizard.A) (enter Wizard.A Runs.first_start)
               = (Raised (Flow back), Runs.first_raised)) by (vm_compute; reflexivity).
  split; [exact H1|]. split; [exact H2|].
  apply (C6_back_from_first_step Wizard.pages_back_first 0 Wizard.A
           Runs.first_start Runs.first_raised H1 H2).
Defined.

(** The quick pick of page B, created with two steps on the stack. *)
Lemma C7_back_button_witness :
  exists p,
    widgets (showQuickPick (Wizard.pick "B" None) (enter Wizard.B Runs.back_on_B)) !! 1
      = Some p /\
    buttons p = [Back] /\
    promise (handle (TriggerButton Back) p) = Rejected back.
Proof.
  destruct (C7_back_button (Wizard.pick "B" None) (enter Wizard.B Runs.back_on_B))
    as (p & Hl & _ & _ & _ & Hmany & _ & _ & Hpress & _).
  exists p. split; [exact Hl|]. split; [|exact Hpress].
  assert (Hlen : 1 < length (steps (enter Wizard.B Runs.back_on_B)))
    by (vm_compute; lia).
  rewrite (Hmany Hlen). vm_compute. reflexivity.
Defined.

(** Page B replaces the prompt of page A. *)
Lemma C8_one_prompt_witness :
  at_most_current Runs.back_on_B /\
  current Runs.back_on_B = Some 0 /\
  trace (showQuickPick (Wizard.pick "B" None) Runs.back_on_B)
    = trace Runs.back_on_B ++ [Disposed 0; Shown 1] /\
  at_most_current (snd (stepThrough Wizard.pages 2 (Some Wizard.B) Runs.back_on_B)).
Proof.
  assert (H1 : at_most_current Runs.back_on_B).
  { intros i p Hl Hv. vm_compute in Hl. destruct i as [|i].
    - vm_compute. reflexivity.
    - destruct i; discriminate Hl. }
  destruct (C8_one_prompt_at_a_time Wizard.pages Runs.back_on_B H1)
    as (Hq & _ & _ & _ & _ & _ & Hrun & _).
  assert (H2 : current Runs.back_on_B = Some 0) by (vm_compute; reflexivity).
  split; [exact H1|]. split; [exact H2|].
  split; [rewrite (Hq (Wizard.pick "B" None) 0 H2); vm_compute; reflexivity|].
  exact (Hrun 2 (Some Wizard.B)).
Defined.

(** "ab" typed into the name box and submitted. *)
Lemma C9_accept_witness :
  source (handle (ChangeValue "ab") Wizard.shown_box) = InputBoxOf Wizard.name_box /\
  promise (handle (ChangeValue "ab") Wizard.shown_box) = Pending /\
  enabled (handle_all [ChangeValue "ab"; Accept] Wizard.shown_box) = false /\
  busy (handle_all [ChangeValue "ab"; Accept] Wizard.shown_box) = true /\
  promise (handle_all [ChangeValue "ab"; Accept; Settle 2] Wizard.shown_box)
    = Resolved (Text "ab").
Proof.
  assert (H1 : source (handle (ChangeValue "ab") Wizard.shown_box)
               = InputBoxOf Wizard.name_box) by (vm_compute; reflexivity).
  assert (H2 : promise (handle (ChangeValue "ab") Wizard.shown_box) = Pending)
    by (vm_compute; reflexivity).
  destruct (C9_accept_validates Wizard.name_box (handle (ChangeValue "ab") Wizard.shown_box)
              H1 H2) as ((He & Hb & _) & _ & Hok).
  assert (H3 : truthy (validate Wizard.name_box
                         (value (handle (ChangeValue "ab") Wizard.shown_box))) = false)
    by (vm_compute; reflexivity).
  destruct (Hok H3) as (Hres & _).
  split; [exact H1|]. split; [exact H2|]. split; [exact He|]. split; [exact Hb|].
  vm_compute in Hres. vm_compute. exact Hres.
Defined.

(** "ab" submitted, then the box edited to "a" before the validation
    completes. *)
Lemma C10_capture_witness :
  source (handle (ChangeValue "ab") Wizard.shown_box) = InputBoxOf Wizard.name_box /\
  promise (handle (ChangeValue "ab") Wizard.shown_box) = Pending /\
  (Settle 2 ∉ [ChangeValue "a"]) /\
  value (handle_all [ChangeValue "ab"; Accept; ChangeValue "a"] Wizard.shown_box) = "a" /\
  promise (handle_all [ChangeValue "ab"; Accept; ChangeValue "a"; Settle 2] Wizard.shown_box)
    = Resolved (Text "ab").
Proof.
  assert (H1 : source (handle (ChangeValue "ab") Wizard.shown_box)
               = InputBoxOf Wizard.name_box) by (vm_compute; reflexivity).
  assert (H2 : promise (handle (ChangeValue "ab") Wizard.shown_box) = Pending)
    by (vm_compute; reflexivity).
  assert (H3 : Settle 2 ∉ [ChangeValue "a"]).
  { apply not_elem_of_cons. split; [discriminate|apply not_elem_of_nil]. }
  destruct (C10_accept_captures_value Wizard.name_box
              (handle (ChangeValue "ab") Wizard.shown_box) [ChangeValue "a"] H1 H2 H3)
    as (_ & Hok & _).
  assert (H4 : truthy (validate Wizard.name_box
                         (value (handle (ChangeValue "ab") Wizard.shown_box))) = false)
    by (vm_compute; reflexivity).
  assert (H5 : promise (handle_all [ChangeValue "a"]
                          (handle Accept (handle (ChangeValue "ab") Wizard.shown_box)))
               = Pending) by (vm_compute; reflexivity).
  pose proof (Hok H4 H5) as Hres.
  split; [exact H1|]. split; [exact H2|]. split; [exact H3|].
  split; [vm_compute; reflexivity|].
  vm_compute in Hres. vm_compute. exact Hres.
Defined.

(** * Further properties *)

(** ** What a prompt can resolve with *)

Ltac in_snoc :=
  first
    [ assumption
    | apply elem_of_app; first
        [ left; assumption
        | right; apply list_elem_of_singleton; reflexivity ]
    | match goal with
      | H : _ \/ _ |- _ => destruct H; [left|right]; in_snoc
      | H : _ /\ _ |- _ /\ _ => destruct H; split; in_snoc
      end ].

Lemma handle_all_snoc evs ev p :
  handle_all (evs ++ [ev]) p = handle ev (handle_all evs p).
Proof. unfold handle_all. rewrite foldl_app. reflexivity. Qed.

Lemma handle_keeps_source ev p : source (handle ev p) = source p.
Proof. unfold_handlers. destruct ev; simpl; prompt_cases; simpl in *; congruence. Qed.

Lemma handle_all_keeps_source evs : forall p, source (handle_all evs p) = source p.
Proof.
  induction evs as [|ev evs IH]; intros p; simpl; [reflexivity|].
  rewrite IH. apply handle_keeps_source.
Qed.

(** A settled promise stays as it is. *)
Lemma handle_keeps_settled ev p :
  promise p <> Pending -> promise (handle ev p) = promise p.
Proof.
  intros Hp. unfold_handlers. destruct ev; simpl; prompt_cases; simpl in *; congruence.
Qed.

(** A submission being validated was parked by [onDidAccept]. *)
Lemma accept_parked_by ev p t v m :
  inflight (handle ev p) !! t = Some (AfterAccept v m) ->
  inflight p !! t = Some (AfterAccept v m) \/
  (ev = Accept /\ exists b, source p = InputBoxOf b /\ m = validate b v).
Proof.
  unfold_handlers.
  destruct ev as [item|sel| |text| |t']; simpl; prompt_cases; simpl in *; auto;
    intros Hk.
  all: try (apply lookup_insert_Some in Hk as [[_ Hk]|[_ Hk]]; [|auto];
            first [discriminate Hk | injection Hk as <- <-; right; eauto]).
  all: try (apply lookup_delete_Some in Hk as [_ Hk]; auto).
Qed.

Lemma explained_more evs ev p :
  promise (handle ev p) = promise p -> source (handle ev p) = source p ->
  explained evs p -> explained (evs ++ [ev]) (handle ev p).
Proof.
  unfold explained. intros -> ->.
  destruct (promise p) as [|[x|b|t|]|a]; try tauto.
  - intros [Hq [rest Hin]]. split; [assumption|]. exists rest. in_snoc.
  - intros [Hb Hin]. split; [assumption|]. in_snoc.
  - intros [Hin Hsrc]. split; [in_snoc|assumption].
  - intros [Hin|[Hq Hin]]; [left|right; split; [assumption|]]; in_snoc.
  - intros [Ha Hin]. split; [assumption|]. in_snoc.
Qed.

Lemma explained_handle evs ev p :
  submitted evs p -> explained evs p ->
  explained (evs ++ [ev]) (handle ev p) /\ submitted (evs ++ [ev]) (handle ev p).
Proof.
  intros Hsub Hex.
  assert (Hlast : ev ∈ evs ++ [ev])
    by (apply elem_of_app; right; apply list_elem_of_singleton; reflexivity).
  split.
  - assert (Hcase : promise p = Pending \/ promise p <> Pending)
      by (destruct (promise p); auto; right; discriminate).
    destruct Hcase as [Hp|Hp];
      [|apply explained_more; auto using handle_keeps_settled, handle_keeps_source].
    destruct ev as [item|sel| |text| |t].
    + unfold explained. unfold_handlers. simpl.
      destruct (decide (item = Back)) as [->|Hne]; repeat (rewrite Hp; simpl); auto.
    + unfold explained. unfold_handlers. simpl.
      destruct (source p) as [q|b] eqn:Hs; repeat (rewrite ?Hp, ?Hs; simpl); auto.
      destruct sel as [|x rest]; [right; split; eauto|]. split; eauto.
    + unfold explained. unfold_handlers. simpl.
      destruct (source p) as [q|b] eqn:Hs; repeat (rewrite ?Hp, ?Hs; simpl); auto.
      destruct (truthy_flag (qp_acceptFilterBoxTextAsSelection q)) eqn:Hf;
        repeat (rewrite ?Hp, ?Hs; simpl); auto.
    + unfold explained. unfold_handlers. simpl.
      destruct (source p) as [q|b] eqn:Hs; repeat (rewrite ?Hp, ?Hs; simpl); auto.
    + unfold explained. unfold_handlers. simpl. repeat (rewrite Hp; simpl). auto.
    + unfold explained. simpl.
      destruct (inflight p !! t) as [[v m|m]|] eqn:Hk; simpl; rewrite ?Hp; simpl; auto.
      * destruct (Hsub t v m Hk) as (Hacc & b & Hs & ->).
        unfold continue, resolve, settle. simpl.
        destruct (truthy (validate b v)) eqn:Htr; simpl; rewrite Hp; simpl; auto.
        rewrite Hs. split; [in_snoc|assumption].
      * unfold continue. destruct (decide (t = validating p)); simpl; rewrite Hp; auto.
  - intros t v m Hk. rewrite handle_keeps_source.
    destruct (accept_parked_by ev p t v m Hk) as [Hold|(-> & b & Hs & Hm)].
    + destruct (Hsub t v m Hold) as (Hacc & b & Hs & Hm).
      split; [in_snoc|eauto].
    + split; [in_snoc|eauto].
Qed.

(** Whatever a prompt that was pending with nothing awaited comes to, the
    events it received account for it. *)
Lemma outcome_explained evs : forall p,
  promise p = Pending -> inflight p = ∅ ->
  explained evs (handle_all evs p) /\ submitted evs (handle_all evs p).
Proof.
  induction evs as [|ev evs IH] using rev_ind; intros p Hp Hi.
  - split.
    + unfold explained. simpl. rewrite Hp. exact I.
    + intros t v m Hk. simpl in Hk. rewrite Hi, lookup_empty in Hk. discriminate.
  - rewrite handle_all_snoc. destruct (IH p Hp Hi) as [Hex Hsub].
    apply explained_handle; assumption.
Qed.

Section Awaiting.

Context {State Step : Type}.

(** While a step awaits prompt [id], the prompt only changes by the events
    of the script that are addressed to it, and the value awaited is the
    outcome of its promise. *)
Lemma await_events_prompt id events : forall (w w' : @World State Step) r p0,
  await_events id events w = (r, w') ->
  widgets w !! id = Some p0 ->
  exists evs,
    (forall ev, ev ∈ evs -> (id, ev) ∈ events) /\
    widgets w' !! id = Some (handle_all evs p0) /\
    (forall s, r = Some s -> settled (Some (handle_all evs p0)) = Some s).
Proof.
  induction events as [|[i ev] rest IH]; intros w w' r p0 Ha Hl; simpl in Ha.
  - exists []. destruct (settled (widgets w !! id)) as [s|] eqn:Hs;
      injection Ha as <- <-; simpl; rewrite Hl in *;
      (split; [intros ev Hin; inversion Hin|]); (split; [reflexivity|]);
      intros s' [= <-]; try assumption.
  - destruct (settled (widgets w !! id)) as [s|] eqn:Hs.
    + injection Ha as <- <-. exists []. simpl. rewrite Hl in *.
      split; [intros ev0 Hin; inversion Hin|]. split; [reflexivity|].
      intros s' [= <-]. assumption.
    + destruct (decide (i = id)) as [->|Hne].
      * destruct (IH (deliver id ev w) w' r (handle ev p0) Ha) as (evs & Hin & Hw & Hr).
        { simpl. rewrite list_lookup_alter_eq, Hl. reflexivity. }
        exists (ev :: evs). split; [|split; assumption].
        intros ev0 Hev0. apply elem_of_cons in Hev0 as [->|Hev0].
        -- apply list_elem_of_here.
        -- apply list_elem_of_further, Hin, Hev0.
      * destruct (IH (deliver i ev w) w' r p0 Ha) as (evs & Hin & Hw & Hr).
        { simpl. rewrite list_lookup_alter_ne by assumption. exact Hl. }
        exists evs. split; [|split; assumption].
        intros ev0 Hev0. apply list_elem_of_further, Hin, Hev0.
Qed.

(** The prompt as [showQuickPick] and [showInputBox] leave it. *)
Lemma present_new input (w : @World State Step) :
  exists p,
    widgets (present input w) !! length (widgets w) = Some p /\
    source p = source input /\ promise p = promise input /\
    inflight p = inflight input /\ validationMessage p = validationMessage input /\
    value p = value input /\ buttons p = buttons input /\ visible p = true.
Proof.
  unfold present, dispose_current. simpl.
  assert (Hin : (widgets w ++ [input]) !! length (widgets w) = Some input).
  { apply list_lookup_middle. reflexivity. }
  destruct (current w) as [c|]; simpl; rewrite list_lookup_alter_eq.
  - rewrite list_lookup_alter. destruct (decide (c = length (widgets w))) as [->|_];
      rewrite Hin; simpl; eexists; (split; [reflexivity|]); simpl; repeat split.
  - rewrite Hin. simpl. eexists. split; [reflexivity|]. simpl. repeat split.
Qed.

Lemma script_present input (w : @World State Step) :
  script (present input w) = script w.
Proof. unfold present, dispose_current. simpl. destruct (current w); reflexivity. Qed.

(** What the awaited prompt has come to is accounted for by events of the
    script. *)
Lemma await_explained input (w w' : @World State Step) s :
  promise input = Pending -> inflight input = ∅ ->
  await (length (widgets w)) (present input w) = (Some s, w') ->
  exists evs p,
    (forall ev, ev ∈ evs -> (length (widgets w), ev) ∈ script w) /\
    source p = source input /\
    settled (Some p) = Some s /\
    explained evs p.
Proof.
  intros Hp Hi Ha. unfold await in Ha. rewrite script_present in Ha.
  destruct (present_new input w) as (p0 & Hl & Hs & Hp0 & Hi0 & _).
  destruct (await_events_prompt _ _ _ _ _ _ Ha Hl) as (evs & Hin & _ & Hr).
  exists evs, (handle_all evs p0).
  split; [exact Hin|]. split; [rewrite handle_all_keeps_source; exact Hs|].
  split; [apply Hr; reflexivity|].
  apply outcome_explained; congruence.
Qed.

End Awaiting.

(** X1: the results of [showQuickPick].  What a step gets from awaiting a
    quick pick is accounted for by an event of the script addressed to that
    quick pick: it throws only the Back signal, and only when Back was
    pressed; it yields an item only when a selection starting with that item
    was made, a button only when that button, which is not Back, was pressed,
    the filter text only under [acceptFilterBoxTextAsSelection] and when the
    user accepted, and nothing only when the prompt was hidden or the
    selection became empty. *)
Theorem showQuickPick_results {State Step : Type} (q : IQuickPickParameters)
    (w w' : @World State Step) (s : Settled) :
  await (length (widgets w)) (showQuickPick q w) = (Some s, w') ->
  let id := length (widgets w) in
  match s with
  | Thrown a => a = back /\ (id, TriggerButton Back) ∈ script w
  | Fulfilled (Item x) => exists rest, (id, ChangeSelection (x :: rest)) ∈ script w
  | Fulfilled (Button b) => b <> Back /\ (id, TriggerButton b) ∈ script w
  | Fulfilled (Text t) =>
      truthy_flag (qp_acceptFilterBoxTextAsSelection q) = true /\ (id, Accept) ∈ script w
  | Fulfilled Undefined => (id, Hide) ∈ script w \/ (id, ChangeSelection []) ∈ script w
  end.
Proof.
  intros Ha id.
  destruct (await_explained (createQuickPick w q) w w' s eq_refl eq_refl Ha)
    as (evs & p & Hin & Hs & Hset & Hex).
  unfold explained in Hex. simpl in Hset, Hs. rewrite Hs in Hex.
  destruct (promise p) as [|[x|b|t|]|a]; try discriminate Hset; injection Hset as <-.
  - destruct Hex as [_ [rest Hx]]. exists rest. apply Hin, Hx.
  - destruct Hex as [Hb Hx]. split; [exact Hb|apply Hin, Hx].
  - destruct Hex as [Hx Hf]. split; [exact Hf|apply Hin, Hx].
  - destruct Hex as [Hx|[_ Hx]]; [left|right]; apply Hin, Hx.
  - destruct Hex as [-> Hx]. split; [reflexivity|apply Hin, Hx].
Qed.

(** X2: the results of [showInputBox].  What a step gets from awaiting an
    input box: if it is the Back signal, Back was pressed; it is never an
    item; it is a button only when that button, which is not Back, was
    pressed, nothing only when the box was hidden, and a text only when the
    user accepted and only a text for which the validator reported no
    message.  (What a validator that throws makes [showInputBox] throw is
    outside the model and not covered.) *)
Theorem showInputBox_results {State Step : Type} (b : InputBoxParameters)
    (w w' : @World State Step) (s : Settled) :
  await (length (widgets w)) (showInputBox b w) = (Some s, w') ->
  let id := length (widgets w) in
  match s with
  | Thrown a => a = back -> (id, TriggerButton Back) ∈ script w
  | Fulfilled (Item x) => False
  | Fulfilled (Button c) => c <> Back /\ (id, TriggerButton c) ∈ script w
  | Fulfilled (Text t) => truthy (validate b t) = false /\ (id, Accept) ∈ script w
  | Fulfilled Undefined => (id, Hide) ∈ script w
  end.
Proof.
  intros Ha id.
  destruct (await_explained (createInputBox w b) w w' s eq_refl eq_refl Ha)
    as (evs & p & Hin & Hs & Hset & Hex).
  unfold explained in Hex. simpl in Hset, Hs. rewrite Hs in Hex.
  destruct (promise p) as [|[x|c|t|]|a]; try discriminate Hset; injection Hset as <-.
  - destruct Hex as [[q Hq] _]. discriminate Hq.
  - destruct Hex as [Hb Hx]. split; [exact Hb|apply Hin, Hx].
  - destruct Hex as [Hx Hf]. split; [exact Hf|apply Hin, Hx].
  - destruct Hex as [Hx|[[q Hq] _]]; [apply Hin, Hx|discriminate Hq].
  - destruct Hex as [_ Hx]. intros _. apply Hin, Hx.
Qed.

(** ** The validation message *)

Lemma from_typed_handle b evs ev p :
  source p = InputBoxOf b ->
  from_typed b evs p -> from_typed b (evs ++ [ev]) (handle ev p).
Proof.
  intros Hs [Hmsg Hpark].
  assert (Hmore : forall text, ChangeValue text ∈ evs -> ChangeValue text ∈ evs ++ [ev]).
  { intros text Hin. apply elem_of_app. left. exact Hin. }
  assert (Hmsg' : validationMessage p = None \/
            exists text, ChangeValue text ∈ evs ++ [ev] /\
                         validationMessage p = validate b text).
  { destruct Hmsg as [Hn|(text & Hin & Hm)]; [left|right]; eauto. }
  assert (Hpark' : forall t m, inflight p !! t = Some (AfterChange m) ->
            exists text, ChangeValue text ∈ evs ++ [ev] /\ m = validate b text).
  { intros t m Hk. destruct (Hpark t m Hk) as (text & Hin & Hm). eauto. }
  destruct ev as [item|sel| |text| |t'].
  - split; unfold_handlers; simpl; prompt_cases; simpl in *; assumption.
  - split; unfold_handlers; simpl; prompt_cases; simpl in *; assumption.
  - split; unfold_handlers; simpl; prompt_cases; simpl in *; try assumption.
    all: try discriminate.
    intros t m Hk. apply lookup_insert_Some in Hk as [[_ Hk]|[_ Hk]];
      [discriminate Hk|eauto].
  - split; unfold_handlers; simpl; prompt_cases; simpl in *; try assumption.
    all: try discriminate.
    intros t m Hk. apply lookup_insert_Some in Hk as [[_ Hk]|[_ Hk]]; [|eauto].
    injection Hk as <-. exists text. split.
    + apply elem_of_app. right. apply list_elem_of_singleton. reflexivity.
    + congruence.
  - split; unfold_handlers; simpl; prompt_cases; simpl in *; assumption.
  - simpl. destruct (inflight p !! t') as [[v m|m]|] eqn:Hk; [| |split; assumption].
    + split.
      * unfold continue, resolve, settle. simpl.
        destruct (truthy m); simpl; [assumption|]. destruct (promise p); assumption.
      * intros t m0 Hk0.
        assert (Hk1 : inflight p !! t = Some (AfterChange m0)).
        { revert Hk0. unfold continue, resolve, settle. simpl.
          destruct (truthy m); simpl; [|destruct (promise p); simpl];
            intros Hk0; apply lookup_delete_Some in Hk0 as [_ Hk0]; exact Hk0. }
        eauto.
    + split.
      * unfold continue. simpl. destruct (decide (t' = validating p)); simpl;
          [|assumption]. right. apply (Hpark' t' m Hk).
      * intros t m0 Hk0.
        assert (Hk1 : inflight p !! t = Some (AfterChange m0)).
        { revert Hk0. unfold continue. simpl.
          destruct (decide (t' = validating p)); simpl;
            intros Hk0; apply lookup_delete_Some in Hk0 as [_ Hk0]; exact Hk0. }
        eauto.
Qed.

(** X3: where the validation message comes from.  From the moment an input
    box is shown with no message, the message on display is at every moment
    either none or the validator's result for a text the user typed: the
    results of the first call [validate('')] and of the validations made on
    submission are never displayed. *)
Theorem validation_message_from_typed_text (b : InputBoxParameters) (p : Prompt)
    (evs : list UiEvent) :
  source p = InputBoxOf b -> inflight p = ∅ -> validationMessage p = None ->
  validationMessage (handle_all evs p) = None \/
  exists text, ChangeValue text ∈ evs /\
               validationMessage (handle_all evs p) = validate b text.
Proof.
  intros Hs Hi Hm.
  enough (H : from_typed b evs (handle_all evs p)) by apply H.
  induction evs as [|ev evs IH] using rev_ind.
  - split; [left; exact Hm|]. intros t m Hk. simpl in Hk.
    rewrite Hi, lookup_empty in Hk. discriminate.
  - rewrite handle_all_snoc. apply from_typed_handle; [|exact IH].
    rewrite handle_all_keeps_source. exact Hs.
Qed.

(** ** Accepting the filter text *)

Lemma edits_keep_pending q texts : forall p,
  source p = QuickPickOf q -> promise p = Pending ->
  let edited := handle_all (ChangeValue <$> texts) p in
  source edited = QuickPickOf q /\ promise edited = Pending /\
  value edited = default (value p) (last texts).
Proof.
  induction texts as [|text texts IH] using rev_ind; intros p Hs Hp; simpl.
  - auto.
  - rewrite fmap_app. simpl. rewrite handle_all_snoc, last_snoc. simpl.
    destruct (IH p Hs Hp) as (Hs' & Hp' & _).
    unfold_handlers. simpl. rewrite Hp', Hs'. simpl. auto.
Qed.

(** X4: accepting the filter text of a quick pick.  When the user accepts
    after typing into the filter box, a quick pick created with
    [acceptFilterBoxTextAsSelection] resolves with the text typed last;
    without that option there is no listener for the acceptance and the
    prompt stays pending. *)
Theorem quick_pick_accepts_filter_text (q : IQuickPickParameters) (p : Prompt)
    (texts : list string) (text : string) :
  source p = QuickPickOf q -> promise p = Pending ->
  promise (handle_all ((ChangeValue <$> texts ++ [text]) ++ [Accept]) p)
  = if truthy_flag (qp_acceptFilterBoxTextAsSelection q)
    then Resolved (Text text) else Pending.
Proof.
  intros Hs Hp. rewrite handle_all_snoc.
  destruct (edits_keep_pending q (texts ++ [text]) p Hs Hp) as (Hs' & Hp' & Hv).
  rewrite last_snoc in Hv. simpl in Hv.
  set (edited := handle_all (ChangeValue <$> texts ++ [text]) p) in *.
  clearbody edited. unfold_handlers. simpl. rewrite Hp', Hs'.
  destruct (truthy_flag (qp_acceptFilterBoxTextAsSelection q)); simpl.
  - rewrite Hv. reflexivity.
  - exact Hp'.
Qed.

(** ** More on the loop *)

Section MoreLoop.

Context {State Step : Type}.
Variable body : Step -> @Prog State Step.

Lemma await_events_kept (I : @World State Step -> Prop) (HI : body_kept I) id events :
  forall w, I w -> I (snd (await_events id events w)).
Proof.
  induction events as [|[i ev] rest IH]; intros w Hw; simpl;
    destruct (settled (widgets w !! id)); simpl.
  1-3: apply (kept_script I HI); assumption.
  apply IH, (kept_deliver I HI); assumption.
Qed.

(** What every operation of a step body keeps, the body keeps. *)
Lemma exec_kept (I : @World State Step -> Prop) (HI : body_kept I) (p : @Prog State Step) :
  forall w, I w -> I (snd (exec p w)).
Proof.
  induction p as [next|err|k IH|s k IH|q k IH|b k IH]; intros w Hw; simpl; auto.
  - apply IH, (kept_state I HI); assumption.
  - pose proof (await_events_kept I HI (length (widgets w))
                  (script (showQuickPick q w)) (showQuickPick q w)
                  (kept_quickPick I HI q w Hw)) as Ha.
    unfold await. destruct (await_events _ _ _) as [[r|] w']; simpl in *; auto.
  - pose proof (await_events_kept I HI (length (widgets w))
                  (script (showInputBox b w)) (showInputBox b w)
                  (kept_inputBox I HI b w Hw)) as Ha.
    unfold await. destruct (await_events _ _ _) as [[r|] w']; simpl in *; auto.
Qed.


(** ... and wherever else a run stops, short of the final disposal. *)
Lemma stepThrough_kept (I : @World State Step -> Prop) (HI : run_kept I)
    (Hend : forall w, I w -> I (dispose_current w)) fuel :
  forall step w, I w -> I (snd (stepThrough body fuel step w)).
Proof.
  induction fuel as [|fuel IH]; intros [s|] w Hw; simpl; auto.
  pose proof (exec_kept I (kept_body I HI) (body s) (enter s w)
                (kept_enter I HI s w Hw)) as He.
  destruct (exec (body s) (enter s w)) as [[next|[[]|e]|] w']; simpl in *; auto.
  - apply IH. apply (kept_pop I HI (snd (pop w'))), (kept_pop I HI w'). assumption.
  - apply IH. apply (kept_pop I HI w'). assumption.
Qed.

(** X5: Resume.  When a step raises Resume the stack is popped once, which
    yields that very step, and the loop goes on with it as the current step:
    Resume never ends a run, the step is invoked again on the stack it was
    entered on, and the history below it is untouched. *)
Theorem resume_reenters_same_step (fuel : nat) (s : Step) (w w' : @World State Step) :
  exec (body s) (enter s w) = (Raised (Flow resume), w') ->
  let again := enter s (set_steps (steps w) w') in
  pop w' = (Some s, set_steps (steps w) w') /\
  stepThrough body (S fuel) (Some s) w
    = stepThrough body fuel (Some s) (set_steps (steps w) w') /\
  steps again = steps w ++ [s] /\
  invocations (trace again) = invocations (trace w) ++ [s; s].
Proof.
  intros He again. destruct (exec_after_enter body _ _ _ _ He) as [Hst Hinv].
  assert (Hpop : pop w' = (Some s, set_steps (steps w) w')) by (apply pop_snoc, Hst).
  split; [exact Hpop|]. split; [|split].
  - simpl. rewrite He. unfold pop in Hpop. injection Hpop as -> ->. reflexivity.
  - unfold again. rewrite steps_enter. reflexivity.
  - unfold again. rewrite invocations_enter. simpl. rewrite Hinv, <- app_assoc. reflexivity.
Qed.

(** X6: forward transitions.  When the steps of a list are entered one after
    the other, each returning the next, the loop has invoked exactly those
    steps in that order and the stack has grown by exactly those steps: after
    n forward transitions on a new runner the stack holds n entries. *)
Theorem forward_steps_stack_up (step last : option Step) (ss : list Step)
    (w w' : @World State Step) :
  forward body step w ss last w' ->
  (forall fuel, stepThrough body (length ss + fuel) step w = stepThrough body fuel last w') /\
  steps w' = steps w ++ ss /\
  length (steps w') = length (steps w) + length ss /\
  invocations (trace w') = invocations (trace w) ++ ss.
Proof.
  intros Hf. induction Hf as [step w|s w next w1 ss last w2 He Hf IH].
  - rewrite !app_nil_r, Nat.add_0_r. auto.
  - destruct IH as (Hrun & Hst & Hlen & Hinv).
    destruct (exec_after_enter body _ _ _ _ He) as [Hst1 Hinv1].
    split; [|split; [|split]].
    + intros fuel. simpl. rewrite He. apply Hrun.
    + rewrite Hst, Hst1, <- app_assoc. reflexivity.
    + rewrite Hlen, Hst1, length_app. simpl. lia.
    + rewrite Hinv, Hinv1, <- app_assoc. reflexivity.
Qed.

End MoreLoop.

(** ** Invariants of whole runs *)

Section RunInvariants.

Context {State Step : Type}.
Variable body : Step -> @Prog State Step.

(** Where a widget of the world after [present] comes from. *)
Lemma present_lookup_cases input (w : @World State Step) i p :
  widgets (present input w) !! i = Some p ->
  (i = length (widgets w) /\ (p = show input \/ p = show (dispose input))) \/
  (i < length (widgets w) /\
   exists p0, widgets w !! i = Some p0 /\
     ((current w = Some i /\ p = dispose p0) \/ (current w <> Some i /\ p = p0))).
Proof.
  unfold present, dispose_current. simpl. intros Hl.
  assert (Hin : (widgets w ++ [input]) !! length (widgets w) = Some input).
  { apply list_lookup_middle. reflexivity. }
  destruct (decide (i = length (widgets w))) as [->|Hne].
  - left. split; [reflexivity|]. rewrite list_lookup_alter_eq in Hl.
    destruct (current w) as [c|]; simpl in Hl.
    + rewrite list_lookup_alter in Hl.
      destruct (decide (c = length (widgets w))) as [->|_]; rewrite Hin in Hl;
        simpl in Hl; injection Hl as <-; auto.
    + rewrite Hin in Hl. simpl in Hl. injection Hl as <-. auto.
  - right. rewrite list_lookup_alter_ne in Hl by congruence.
    assert (Hold : forall q, (widgets w ++ [input]) !! i = Some q ->
                     i < length (widgets w) /\ widgets w !! i = Some q).
    { intros q Hq. apply lookup_app_Some in Hq as [Hq|[Hlen Hq]].
      - split; [eapply lookup_lt_Some; eauto|assumption].
      - apply list_lookup_singleton_Some in Hq as [Hi _]. lia. }
    destruct (current w) as [c|] eqn:Hc; simpl in Hl.
    + rewrite list_lookup_alter in Hl. destruct (decide (c = i)) as [->|Hci].
      * destruct ((widgets w ++ [input]) !! i) as [p0|] eqn:Hp0; simpl in Hl;
          [|discriminate]. injection Hl as <-.
        destruct (Hold p0 eq_refl) as [Hlt Hw]. split; [assumption|]. eauto.
      * destruct (Hold p Hl) as [Hlt Hw]. split; [assumption|].
        exists p. split; [assumption|]. right. split; [congruence|reflexivity].
    + destruct (Hold p Hl) as [Hlt Hw]. split; [assumption|].
      exists p. split; [assumption|]. right. split; [discriminate|reflexivity].
Qed.

Lemma steps_present input (w : @World State Step) : steps (present input w) = steps w.
Proof. unfold present, dispose_current. simpl. destruct (current w); reflexivity. Qed.

Lemma invocations_present input (w : @World State Step) :
  invocations (trace (present input w)) = invocations (trace w).
Proof.
  unfold present, dispose_current. simpl.
  destruct (current w); simpl; rewrite !invocations_app; simpl;
    rewrite ?app_nil_r; reflexivity.
Qed.

Lemma stack_of_invoked_kept : run_kept (@stack_of_invoked State Step).
Proof.
  split; [split|..].
  - intros s w Hw. exact Hw.
  - intros l w Hw. exact Hw.
  - intros i ev w Hw. exact Hw.
  - intros q w Hw. unfold stack_of_invoked, showQuickPick.
    rewrite steps_present, invocations_present. exact Hw.
  - intros b w Hw. unfold stack_of_invoked, showInputBox.
    rewrite steps_present, invocations_present. exact Hw.
  - intros s w [Hin Hlen]. unfold stack_of_invoked.
    rewrite steps_enter, invocations_enter, !length_app. split; [|simpl; lia].
    intros s' Hs'. apply elem_of_app in Hs' as [Hs'|Hs']; apply elem_of_app; auto.
  - intros w [Hin Hlen]. unfold stack_of_invoked. simpl.
    destruct (steps w) as [|s0 l] eqn:Hst using rev_ind; [simpl; auto|].
    rewrite removelast_last. rewrite length_app in Hlen. simpl in Hlen.
    split; [|lia]. intros s' Hs'. apply Hin, elem_of_app. auto.
Qed.

Lemma stack_of_invoked_dispose_current (w : @World State Step) :
  stack_of_invoked w -> stack_of_invoked (dispose_current w).
Proof.
  unfold stack_of_invoked.
  rewrite steps_dispose_current, invocations_dispose_current. auto.
Qed.

(** X7: the stack holds invoked steps only.  Wherever a run on a new runner
    stops, every entry of the stack is a step the runner has invoked, and the
    stack has no more entries than there were invocations: Back and Resume
    can only lead to steps that ran before. *)
Theorem stack_holds_invoked_steps (fuel : nat) (start : Step) (s0 : State)
    (events : list (nat * UiEvent)) :
  stack_of_invoked (snd (run body fuel start (create s0 events))).
Proof.
  apply (stepThrough_kept body _ stack_of_invoked_kept stack_of_invoked_dispose_current).
  split; simpl; [intros s Hs; inversion Hs|lia].
Qed.





Lemma handle_keeps_buttons ev p : buttons (handle ev p) = buttons p.
Proof. unfold_handlers. destruct ev; simpl; prompt_cases; simpl in *; congruence. Qed.

(** X9: the Back button follows the depth of the stack.  Every prompt a step
    shows, quick pick or input box, has the caller's buttons, preceded by the
    Back button exactly when the step was entered on a non-empty stack: the
    first step of a run on a new runner never gets it, every later step
    does. *)
Theorem back_button_follows_depth (s : Step) (w w' : @World State Step)
    (o : @Outcome Step) :
  exec (body s) (enter s w) = (o, w') ->
  forall i p, length (widgets w) <= i -> widgets w' !! i = Some p ->
    buttons p = (if 0 <? length (steps w) then [Back] else [])
                ++ extra_buttons (source p).
Proof.
  intros He.
  set (n := length (widgets w)). set (l := steps w ++ [s]).
  set (I := fun v : @World State Step =>
              steps v = l /\
              forall i p, n <= i -> widgets v !! i = Some p ->
                buttons p = (if 1 <? length l then [Back] else [])
                            ++ extra_buttons (source p)).
  assert (Hshow : forall input (v : @World State Step),
            buttons input = (if 1 <? length l then [Back] else [])
                            ++ extra_buttons (source input) ->
            I v -> I (present input v)).
  { intros input v Hinput [Hst Hall]. split; [rewrite steps_present; exact Hst|].
    intros i p Hi Hl.
    destruct (present_lookup_cases input v i p Hl)
      as [[_ [->| ->]]|(_ & p0 & Hp0 & [[_ ->]|[_ ->]])]; simpl; eauto. }
  assert (HI : body_kept I).
  { split.
    - intros st v Hv. exact Hv.
    - intros sc v Hv. exact Hv.
    - intros j ev v [Hst Hall]. split; [exact Hst|]. intros i p Hi Hl. simpl in Hl.
      rewrite list_lookup_alter in Hl. destruct (decide (j = i)) as [->|_]; [|eauto].
      destruct (widgets v !! i) as [p0|] eqn:Hp0; simpl in Hl; [|discriminate].
      injection Hl as <-. rewrite handle_keeps_buttons, handle_keeps_source. eauto.
    - intros q v Hv. apply Hshow; [|exact Hv].
      simpl. unfold buttons_for. destruct Hv as [-> _]. reflexivity.
    - intros b v Hv. apply Hshow; [|exact Hv].
      simpl. unfold buttons_for. destruct Hv as [-> _]. reflexivity. }
  assert (H0 : I (enter s w)).
  { split; [apply steps_enter|]. intros i p Hi Hl. exfalso.
    apply lookup_lt_Some in Hl. unfold enter in Hl. simpl in Hl.
    destruct (current w); simpl in Hl; rewrite ?length_alter in Hl; unfold n in Hi; lia. }
  pose proof (exec_kept I HI (body s) (enter s w) H0) as [_ Hall].
  rewrite He in Hall. simpl in Hall.
  intros i p Hi Hl. rewrite (Hall i p Hi Hl). unfold l. rewrite length_app. simpl.
  replace (1 <? length (steps w) + 1) with (0 <? length (steps w)); [reflexivity|].
  destruct (steps w) as [|s1 l1]; [reflexivity|]. simpl.
  symmetry. apply Nat.ltb_lt. lia.
Qed.

End RunInvariants.

(** ** The first answer to a prompt *)

Section FirstAnswer.

Context {State Step : Type}.

Lemma await_first id ev rest (w : @World State Step) p s :
  widgets w !! id = Some p -> promise p = Pending ->
  settled (Some (handle ev p)) = Some s ->
  await id (set_script ((id, ev) :: rest) w)
  = (Some s, set_script rest (deliver id ev w)).
Proof.
  intros Hl Hp Hs. unfold await. simpl. rewrite Hl. simpl. rewrite Hp.
  assert (Hs' : settled (alter (handle ev) id (widgets w) !! id) = Some s).
  { rewrite list_lookup_alter_eq, Hl. exact Hs. }
  destruct rest as [|[i ev'] rest]; simpl; rewrite Hs'; reflexivity.
Qed.

Lemma exec_ShowInputBox b (k : Settled -> @Prog State Step) (w : @World State Step) :
  exec (ShowInputBox b k) w
  = match await (length (widgets w)) (showInputBox b w) with
    | (Some r, w') => exec (k r) w'
    | (None, w') => (Hung, w')
    end.
Proof. reflexivity. Qed.

Lemma showInputBox_set_script b l (w : @World State Step) :
  showInputBox b (set_script l w) = set_script l (showInputBox b w).
Proof.
  unfold showInputBox, present, dispose_current. simpl.
  destruct (current w); reflexivity.
Qed.

(** X10: dismissing a prompt and pressing one of the caller's buttons.  When
    the first thing that happens to a prompt is that the user hides it, the
    awaiting step goes on with [undefined], for a quick pick and for an input
    box alike: nothing is thrown.  When it is the press of a button of the
    caller's, the step goes on with that button. *)
Theorem first_answer_continues_the_step (w : @World State Step)
    (rest : list (nat * UiEvent)) :
  let id := length (widgets w) in
  (forall q k,
     exec (ShowQuickPick q k) (set_script ((id, Hide) :: rest) w)
     = exec (k (Fulfilled Undefined))
         (set_script rest (deliver id Hide (showQuickPick q w)))) /\
  (forall b k,
     exec (ShowInputBox b k) (set_script ((id, Hide) :: rest) w)
     = exec (k (Fulfilled Undefined))
         (set_script rest (deliver id Hide (showInputBox b w)))) /\
  (forall q k n,
     exec (ShowQuickPick q k) (set_script ((id, TriggerButton (Custom n)) :: rest) w)
     = exec (k (Fulfilled (Button (Custom n))))
         (set_script rest (deliver id (TriggerButton (Custom n)) (showQuickPick q w)))) /\
  (forall b k n,
     exec (ShowInputBox b k) (set_script ((id, TriggerButton (Custom n)) :: rest) w)
     = exec (k (Fulfilled (Button (Custom n))))
         (set_script rest (deliver id (TriggerButton (Custom n)) (showInputBox b w)))).
Proof.
  intros id.
  assert (Hfirst : forall input ev s,
            promise input = Pending ->
            (forall p, promise p = Pending -> settled (Some (handle ev p)) = Some s) ->
            await id (set_script ((id, ev) :: rest) (present input w))
            = (Some s, set_script rest (deliver id ev (present input w)))).
  { intros input ev s Hp Hs.
    destruct (present_new input w) as (p & Hl & _ & Hp' & _).
    apply (await_first id ev rest _ p s Hl); [congruence|]. apply Hs. congruence. }
  assert (Hhide : forall p, promise p = Pending ->
            settled (Some (handle Hide p)) = Some (Fulfilled Undefined)).
  { intros p Hp. unfold_handlers. simpl. rewrite Hp. simpl. rewrite ?Hp. reflexivity. }
  assert (Hpress : forall n p, promise p = Pending ->
            settled (Some (handle (TriggerButton (Custom n)) p))
            = Some (Fulfilled (Button (Custom n)))).
  { intros n p Hp. unfold_handlers. simpl. rewrite Hp. simpl. rewrite ?Hp. reflexivity. }
  split; [|split; [|split]].
  - intros q k. rewrite exec_ShowQuickPick, showQuickPick_set_script.
    change (length (widgets (set_script ((id, Hide) :: rest) w))) with id.
    unfold showQuickPick.
    rewrite (Hfirst (createQuickPick w q) Hide _ eq_refl Hhide). reflexivity.
  - intros b k. rewrite exec_ShowInputBox, showInputBox_set_script.
    change (length (widgets (set_script ((id, Hide) :: rest) w))) with id.
    unfold showInputBox.
    rewrite (Hfirst (createInputBox w b) Hide _ eq_refl Hhide). reflexivity.
  - intros q k n. rewrite exec_ShowQuickPick, showQuickPick_set_script.
    change (length (widgets (set_script ((id, TriggerButton (Custom n)) :: rest) w)))
      with id.
    unfold showQuickPick.
    rewrite (Hfirst (createQuickPick w q) _ _ eq_refl (Hpress n)). reflexivity.
  - intros b k n. rewrite exec_ShowInputBox, showInputBox_set_script.
    change (length (widgets (set_script ((id, TriggerButton (Custom n)) :: rest) w)))
      with id.
    unfold showInputBox.
    rewrite (Hfirst (createInputBox w b) _ _ eq_refl (Hpress n)). reflexivity.
Qed.

End FirstAnswer.

(** ** Every prompt is disposed once *)

Section DisposedOnce.

Context {State Step : Type}.
Variable body : Step -> @Prog State Step.




End DisposedOnce.

(** ** A second try *)

Lemma settle_keeps_issued t q : issued (handle (Settle t) q) = issued q.
Proof. unfold_handlers. simpl. prompt_cases; reflexivity. Qed.

(** A submission and the completion of its validation. *)
Lemma submit_verdict b p :
  source p = InputBoxOf b -> promise p = Pending ->
  let checked := handle (Settle (issued p)) (handle Accept p) in
  source checked = InputBoxOf b /\ issued checked = S (issued p) /\
  enabled checked = true /\ busy checked = false /\
  promise checked
  = if truthy (validate b (value p)) then Pending else Resolved (Text (value p)).
Proof.
  intros Hs Hp checked.
  assert (Hk : inflight (handle Accept p) !! issued p
               = Some (AfterAccept (value p) (validate b (value p)))).
  { rewrite (accept_parks b p Hs Hp). simpl. apply lookup_insert_eq. }
  assert (Hq : promise (handle Accept p) = Pending).
  { rewrite (accept_parks b p Hs Hp). exact Hp. }
  destruct (settle_accept _ _ _ _ Hk) as (He & Hb & Hpr). fold checked in He, Hb, Hpr.
  split; [unfold checked; rewrite !handle_keeps_source; exact Hs|].
  split.
  { unfold checked. rewrite settle_keeps_issued, (accept_parks b p Hs Hp). reflexivity. }
  split; [exact He|]. split; [exact Hb|].
  rewrite Hpr. destruct (truthy (validate b (value p))); [exact Hq|].
  unfold resolve, settle. rewrite Hq. reflexivity.
Qed.

(** X13: a rejected text can be corrected.  When the validator objects to
    the submitted text, the input box is pending and enabled again, and the
    user can edit and submit once more: if the validator has no message for
    the new text, the prompt resolves with the new text. *)
Theorem rejected_text_can_be_corrected (b : InputBoxParameters) (p : Prompt)
    (text : string) :
  source p = InputBoxOf b -> promise p = Pending ->
  truthy (validate b (value p)) = true ->
  truthy (validate b text) = false ->
  let first := issued p in
  let second := S (S (issued p)) in
  let rejected := handle_all [Accept; Settle first] p in
  promise rejected = Pending /\ enabled rejected = true /\ busy rejected = false /\
  promise (handle_all [ChangeValue text; Accept; Settle second] rejected)
  = Resolved (Text text).
Proof.
  intros Hs Hp Hbad Hgood first second rejected.
  destruct (submit_verdict b p Hs Hp) as (Hs1 & Hi1 & He1 & Hb1 & Hp1).
  change (handle (Settle (issued p)) (handle Accept p)) with rejected in *.
  rewrite Hbad in Hp1.
  split; [exact Hp1|]. split; [exact He1|]. split; [exact Hb1|].
  destruct (keystroke_keeps b rejected text Hs1 Hp1) as (Hs2 & Hp2 & _ & Hi2).
  set (edited := handle (ChangeValue text) rejected) in *.
  assert (Hv2 : value edited = text).
  { unfold edited. unfold_handlers. simpl. rewrite Hp1, Hs1. reflexivity. }
  destruct (submit_verdict b edited Hs2 Hp2) as (_ & _ & _ & _ & Hres).
  rewrite Hv2, Hgood, Hi2, Hi1 in Hres. exact Hres.
Qed.

(** "a" is submitted in the name box and rejected; "ab" is typed and
    submitted. *)
Lemma corrected_text_witness :
  source (handle (ChangeValue "a") Wizard.shown_box) = InputBoxOf Wizard.name_box /\
  promise (handle (ChangeValue "a") Wizard.shown_box) = Pending /\
  truthy (validate Wizard.name_box (value (handle (ChangeValue "a") Wizard.shown_box)))
    = true /\
  truthy (validate Wizard.name_box "ab") = false /\
  promise
    (handle_all
       [ChangeValue "ab"; Accept;
        Settle (S (S (issued (handle (ChangeValue "a") Wizard.shown_box))))]
       (handle_all [Accept; Settle (issued (handle (ChangeValue "a") Wizard.shown_box))]
          (handle (ChangeValue "a") Wizard.shown_box)))
    = Resolved (Text "ab").
Proof.
  assert (H1 : source (handle (ChangeValue "a") Wizard.shown_box)
               = InputBoxOf Wizard.name_box) by (vm_compute; reflexivity).
  assert (H2 : promise (handle (ChangeValue "a") Wizard.shown_box) = Pending)
    by (vm_compute; reflexivity).
  assert (H3 : truthy (validate Wizard.name_box
                         (value (handle (ChangeValue "a") Wizard.shown_box))) = true)
    by (vm_compute; reflexivity).
  assert (H4 : truthy (validate Wizard.name_box "ab") = false)
    by (vm_compute; reflexivity).
  destruct (rejected_text_can_be_corrected Wizard.name_box
              (handle (ChangeValue "a") Wizard.shown_box) "ab" H1 H2 H3 H4)
    as (_ & _ & _ & Hres).
  split; [exact H1|]. split; [exact H2|]. split; [exact H3|]. split; [exact H4|].
  exact Hres.
Defined.

(** ** The further properties on the three-page wizard *)

(** x is chosen on the quick pick of the first page. *)
Lemma showQuickPick_results_witness :
  await (length (widgets Cases.pick_start))
    (showQuickPick (Wizard.pick "A" None) Cases.pick_start)
    = (Some (Fulfilled (Item Wizard.x)), Cases.pick_answered) /\
  exists rest,
    (length (widgets Cases.pick_start), ChangeSelection (Wizard.x :: rest))
    ∈ script Cases.pick_start.
Proof.
  assert (H : await (length (widgets Cases.pick_start))
                (showQuickPick (Wizard.pick "A" None) Cases.pick_start)
              = (Some (Fulfilled (Item Wizard.x)), Cases.pick_answered))
    by (vm_compute; reflexivity).
  split; [exact H|].
  exact (showQuickPick_results (Wizard.pick "A" None) Cases.pick_start
           Cases.pick_answered (Fulfilled (Item Wizard.x)) H).
Defined.

(** "ab" is submitted in the name box. *)
Lemma showInputBox_results_witness :
  await (length (widgets Cases.box_start)) (showInputBox Wizard.name_box Cases.box_start)
    = (Some (Fulfilled (Text "ab")), Cases.box_answered) /\
  truthy (validate Wizard.name_box "ab") = false /\
  (length (widgets Cases.box_start), Accept) ∈ script Cases.box_start.
Proof.
  assert (H : await (length (widgets Cases.box_start))
                (showInputBox Wizard.name_box Cases.box_start)
              = (Some (Fulfilled (Text "ab")), Cases.box_answered))
    by (vm_compute; reflexivity).
  split; [exact H|].
  exact (showInputBox_results Wizard.name_box Cases.box_start
           Cases.box_answered (Fulfilled (Text "ab")) H).
Defined.

(** "a" is typed into the name box and its validation resolves. *)
Lemma validation_message_witness :
  source Wizard.shown_box = InputBoxOf Wizard.name_box /\
  inflight Wizard.shown_box = ∅ /\
  validationMessage Wizard.shown_box = None /\
  (validationMessage (handle_all [ChangeValue "a"; Settle 1] Wizard.shown_box) = None \/
   exists text, ChangeValue text ∈ [ChangeValue "a"; Settle 1] /\
     validationMessage (handle_all [ChangeValue "a"; Settle 1] Wizard.shown_box)
     = validate Wizard.name_box text).
Proof.
  assert (H1 : source Wizard.shown_box = InputBoxOf Wizard.name_box)
    by (vm_compute; reflexivity).
  assert (H2 : inflight Wizard.shown_box = ∅) by reflexivity.
  assert (H3 : validationMessage Wizard.shown_box = None) by (vm_compute; reflexivity).
  split; [exact H1|]. split; [exact H2|]. split; [exact H3|].
  exact (validation_message_from_typed_text Wizard.name_box Wizard.shown_box
           [ChangeValue "a"; Settle 1] H1 H2 H3).
Defined.

(** "x" then "xy" are typed into the filter box and accepted. *)
Lemma filter_text_witness :
  source Cases.shown_free = QuickPickOf Cases.pick_free /\
  promise Cases.shown_free = Pending /\
  promise (handle_all [ChangeValue "x"; ChangeValue "xy"; Accept] Cases.shown_free)
    = Resolved (Text "xy").
Proof.
  assert (H1 : source Cases.shown_free = QuickPickOf Cases.pick_free)
    by (vm_compute; reflexivity).
  assert (H2 : promise Cases.shown_free = Pending) by (vm_compute; reflexivity).
  split; [exact H1|]. split; [exact H2|].
  exact (quick_pick_accepts_filter_text Cases.pick_free Cases.shown_free ["x"] "xy" H1 H2).
Defined.

(** Page B asks to be shown again. *)
Lemma resume_witness :
  exec (Cases.pages_resume Wizard.B) (enter Wizard.B Cases.resume_on_B)
    = (Raised (Flow resume), Cases.resume_raised) /\
  stepThrough Cases.pages_resume 2 (Some Wizard.B) Cases.resume_on_B
    = stepThrough Cases.pages_resume 1 (Some Wizard.B)
        (set_steps (steps Cases.resume_on_B) Cases.resume_raised).
Proof.
  assert (H : exec (Cases.pages_resume Wizard.B) (enter Wizard.B Cases.resume_on_B)
              = (Raised (Flow resume), Cases.resume_raised))
    by (vm_compute; reflexivity).
  split; [exact H|].
  apply (resume_reenters_same_step Cases.pages_resume 1 Wizard.B
           Cases.resume_on_B Cases.resume_raised H).
Defined.

(** Page A, then page B, which ends the wizard. *)
Lemma forward_witness :
  forward Wizard.pages (Some Wizard.A) Runs.end_start [Wizard.A; Wizard.B] None
    Runs.end_returned /\
  steps Runs.end_returned = steps Runs.end_start ++ [Wizard.A; Wizard.B] /\
  length (steps Runs.end_returned) = length (steps Runs.end_start) + 2.
Proof.
  assert (H1 : exec (Wizard.pages Wizard.A) (enter Wizard.A Runs.end_start)
               = (Returned (Some Wizard.B), Runs.end_on_B)) by (vm_compute; reflexivity).
  assert (H2 : exec (Wizard.pages Wizard.B) (enter Wizard.B Runs.end_on_B)
               = (Returned None, Runs.end_returned)) by (vm_compute; reflexivity).
  assert (H : forward Wizard.pages (Some Wizard.A) Runs.end_start [Wizard.A; Wizard.B]
                None Runs.end_returned).
  { apply (forward_cons _ _ _ _ _ _ _ _ H1).
    apply (forward_cons _ _ _ _ _ _ _ _ H2). apply forward_nil. }
  destruct (forward_steps_stack_up Wizard.pages _ _ _ _ _ H) as (_ & Hst & Hlen & _).
  split; [exact H|]. split; [exact Hst|exact Hlen].
Defined.



(** The quick pick of page B, shown with page A below it on the stack. *)
Lemma back_by_depth_witness :
  exec (Wizard.pages Wizard.B) (enter Wizard.B Runs.back_on_B)
    = (Raised (Flow back), Runs.back_raised) /\
  length (widgets Runs.back_on_B) <= 1 /\
  buttons <$> widgets Runs.back_raised !! 1 = Some [Back].
Proof.
  assert (H1 : exec (Wizard.pages Wizard.B) (enter Wizard.B Runs.back_on_B)
               = (Raised (Flow back), Runs.back_raised)) by (vm_compute; reflexivity).
  assert (H2 : length (widgets Runs.back_on_B) <= 1) by (vm_compute; lia).
  split; [exact H1|]. split; [exact H2|].
  destruct (widgets Runs.back_raised !! 1) as [p|] eqn:Hl;
    [|vm_compute in Hl; discriminate Hl].
  simpl.
  rewrite (back_button_follows_depth Wizard.pages Wizard.B Runs.back_on_B
             Runs.back_raised _ H1 1 p H2 Hl).
  vm_compute in Hl. injection Hl as <-. vm_compute. reflexivity.
Defined.
